(** * dynamic-puppy: an event store on a transactional key-value backend

    Shallow embedding of [src/index.ts] (the [EventStore] class with its two
    request builders [metadataUpdate] and [eventInsert]) together with a model
    of the part of the DynamoDB contract the store relies on: atomic
    transactions of conditional writes and a range query by partition key. *)

From Stdlib Require Import ZArith QArith Qcanon String Ascii List Lia.
From Stdlib Require DecimalString DecimalZ DecimalPos.
From stdpp Require Import numbers strings sorting base option list gmap.

Local Open Scope string_scope.
Local Open Scope list_scope.
Local Open Scope Z_scope.

(** ** Byte order on strings

    DynamoDB returns the items of a partition ordered by the bytes of their
    string sort key; [String.compare] is that order. *)
Module StringOrder.

Definition lt (a b : string) : Prop := String.compare a b = Lt.

#[global] Instance lt_dec : RelDecision lt.
Proof. intros a b. unfold lt. destruct (String.compare a b); [right|left|right]; congruence. Defined.

End StringOrder.

(** ** Failures

    A rejected promise carries one of these.  A transaction that is cancelled
    reports one reason per item of the request, in request order. *)
Inductive CancellationReason :=
| NoReason                  (* code "None": this item was fine *)
| ConditionalCheckFailed
| ValidationError.

Inductive Exception :=
| TransactionCanceledException (reasons : list CancellationReason)
| ValidationException       (* a request the service does not take up *)
| SyntaxError               (* thrown by JSON.parse *)
| TypeError.                (* property read on undefined *)

#[global] Instance CancellationReason_eq_dec : EqDecision CancellationReason.
Proof. solve_decision. Defined.
#[global] Instance Exception_eq_dec : EqDecision Exception.
Proof. solve_decision. Defined.

(** ** The backend

    Scope of the model: one provisioned table with key schema (PK hash, SK
    range), which the [TableName] of a request is taken to name; requests that
    reach the service; a query answered in one page; and the fragment of the
    expression language that [metadataUpdate] produces.  Numbers are exact
    rationals: every finite JavaScript number is one, and the comparisons the
    store performs on them agree with the rational order.  An [N] attribute
    value travels as the decimal text of a number; the model keeps the number
    itself.

    Not in the model: the validation the service and its client perform on a
    request before any item is judged.  A request whose key attribute is the
    empty string (a stream named by the empty string) or whose attribute has
    no value (a payload that [JSON.stringify] gives no text for) is refused
    there with a validation failure, where [prepare] takes the key as it
    comes.  Statements on the outcome of a write are on what the transaction
    decides: its conditions and its update. *)
Module DynamoDB.

Inductive AttributeValue :=
| AttrS (s : string)        (* {S: s} *)
| AttrN (n : Qc).           (* {N: n.toString()} *)

#[global] Instance AttributeValue_eq_dec : EqDecision AttributeValue.
Proof. solve_decision. Defined.

(** An item is a record of named attributes, among them its key. *)
Abbreviation Item := (gmap string AttributeValue).

(** The table: at most one item per primary key (PK, SK). *)
Abbreviation Table := (gmap (string * string) Item).

Definition key_of (i : Item) : option (string * string) :=
  match i !! "PK", i !! "SK" with
  | Some (AttrS pk), Some (AttrS sk) => Some (pk, sk)
  | _, _ => None
  end.

(** *** Expressions *)

Inductive Operand :=
| Attribute (name : string)       (* a literal attribute name, as in [PK] *)
| NameRef (placeholder : string)  (* [#version] *)
| ValueRef (placeholder : string) (* [:expected] *).

Inductive UpdateExpr :=
| ADD (path value : Operand).               (* 'ADD path value' *)

Inductive ConditionExpr :=
| attribute_not_exists (path : Operand)     (* 'attribute_not_exists(path)' *)
| Equals (lhs rhs : Operand).               (* 'lhs = rhs' *)

Record Update := {
  Update_TableName : string;
  Key : Item;
  UpdateExpression : UpdateExpr;
  ExpressionAttributeNames : gmap string string;
  ExpressionAttributeValues : gmap string AttributeValue;
  ConditionExpression : option ConditionExpr;
}.

Record Put := {
  Put_TableName : string;
  Put_Item : Item;
}.

Inductive TransactItem :=
| TransactUpdate (u : Update)     (* {Update: u} *)
| TransactPut (p : Put).          (* {Put: p} *)

Definition resolve_path (names : gmap string string) (o : Operand) : option string :=
  match o with
  | Attribute a => Some a
  | NameRef p => names !! p
  | ValueRef _ => None
  end.

(** The value an operand denotes against the stored item ([None] when there
    is no such item): [None] for an ill-formed operand, [Some None] for an
    attribute the item does not have. *)
Definition operand_value (names : gmap string string) (values : gmap string AttributeValue)
    (stored : option Item) (o : Operand) : option (option AttributeValue) :=
  match o with
  | ValueRef p => Some <$> values !! p
  | _ => a ← resolve_path names o; Some (stored ≫= (.!! a))
  end.

(** A comparison with an attribute that is not there is false. *)
Definition eval_condition (names : gmap string string) (values : gmap string AttributeValue)
    (stored : option Item) (c : ConditionExpr) : option bool :=
  match c with
  | attribute_not_exists p =>
      a ← resolve_path names p;
      Some (bool_decide (stored ≫= (.!! a) = None))
  | Equals l r =>
      x ← operand_value names values stored l;
      y ← operand_value names values stored r;
      Some (match x, y with
            | Some v, Some w => bool_decide (v = w)
            | _, _ => false
            end)
  end.

(** [ADD path value] on a number: an absent attribute counts as 0, an absent
    item is created from the key. *)
Definition eval_update (names : gmap string string) (values : gmap string AttributeValue)
    (key : Item) (stored : option Item) (e : UpdateExpr) : option Item :=
  match e with
  | ADD p v =>
      a ← resolve_path names p;
      match v with
      | ValueRef q =>
          match values !! q with
          | Some (AttrN inc) =>
              let base := default key stored in
              match base !! a with
              | None => Some (<[a := AttrN inc]> base)
              | Some (AttrN n) => Some (<[a := AttrN (n + inc)%Qc]> base)
              | Some (AttrS _) => None
              end
          | _ => None
          end
      | _ => None
      end
  end.

(** What one item of a transaction would write, judged against the table as
    it is before the transaction. *)
Definition prepare (t : Table) (ti : TransactItem)
    : CancellationReason + ((string * string) * Item) :=
  match ti with
  | TransactUpdate u =>
      match key_of (Key u) with
      | None => inl ValidationError
      | Some k =>
          let stored := t !! k in
          let holds :=
            match ConditionExpression u with
            | None => Some true
            | Some c =>
                eval_condition (ExpressionAttributeNames u) (ExpressionAttributeValues u) stored c
            end in
          match holds with
          | None => inl ValidationError
          | Some false => inl ConditionalCheckFailed
          | Some true =>
              match eval_update (ExpressionAttributeNames u) (ExpressionAttributeValues u)
                      (Key u) stored (UpdateExpression u) with
              | None => inl ValidationError
              | Some i => inr (k, i)
              end
          end
      end
  | TransactPut p =>
      match key_of (Put_Item p) with
      | None => inl ValidationError
      | Some k => inr (k, Put_Item p)
      end
  end.

Definition reason_of {A} (r : CancellationReason + A) : CancellationReason :=
  match r with inl c => c | inr _ => NoReason end.

Fixpoint all_prepared {A} (rs : list (CancellationReason + A)) : option (list A) :=
  match rs with
  | [] => Some []
  | inl _ :: _ => None
  | inr w :: rs' => ws ← all_prepared rs'; Some (w :: ws)
  end.

Definition apply_writes (t : Table) (ws : list ((string * string) * Item)) : Table :=
  foldl (λ t' w, <[w.1 := w.2]> t') t ws.

(** [client.transactWriteItems({TransactItems})]: every item is judged
    against the same state; either all writes are applied or none is.  A
    transaction with two operations on one item is not taken up. *)
Definition transactWriteItems (TransactItems : list TransactItem) (t : Table)
    : (Exception + unit) * Table :=
  let rs := prepare t <$> TransactItems in
  match all_prepared rs with
  | Some ws =>
      if bool_decide (NoDup ws.*1)
      then (inr tt, apply_writes t ws)
      else (inl ValidationException, t)
  | None => (inl (TransactionCanceledException (reason_of <$> rs)), t)
  end.

(** Sorted insertion by sort key. *)
Fixpoint insert_by_sk (x : string * Item) (l : list (string * Item)) : list (string * Item) :=
  match l with
  | [] => [x]
  | y :: l' =>
      if decide (StringOrder.lt y.1 x.1) then y :: insert_by_sk x l' else x :: l
  end.

Definition sort_by_sk (l : list (string * Item)) : list (string * Item) :=
  foldr insert_by_sk [] l.

(** The items of one partition with their sort keys, ascending. *)
Definition partition_of (t : Table) (pk : string) : list (string * Item) :=
  sort_by_sk
    (omap (λ kv : (string * string) * Item,
             if decide (kv.1.1 = pk) then Some (kv.1.2, kv.2) else None)
          (map_to_list t)).

(** [client.query] with [KeyConditionExpression: 'PK = :stream']: the
    [Items] of the result. *)
Definition query (pk : string) (t : Table) : (Exception + list Item) * Table :=
  (inr (partition_of t pk).*2, t).

End DynamoDB.

Import DynamoDB.

(** ** Promises over the backend

    An asynchronous call is a computation on the table that settles with a
    value or rejects with an exception. *)
Definition Store (A : Type) : Type := Table → (Exception + A) * Table.

#[global] Instance Store_ret : MRet Store := λ A a t, (inr a, t).

#[global] Instance Store_bind : MBind Store := λ A B f m t,
  match m t with
  | (inl e, t') => (inl e, t')
  | (inr a, t') => f a t'
  end.

Definition throw {A} (e : Exception) : Store A := λ t, (inl e, t).

(** ** Types of the store *)

(** [enum Version { Any = -1, None = -2 }] *)
Module Version.
Definition Any : Qc := Qc_of_Z (-1).
Definition None : Qc := Qc_of_Z (-2).
End Version.

Record Event (T : Type) := { type : string; data : T }.
Arguments type {T} _.
Arguments data {T} _.

(** The generator object made by [async function* () { for (let i = 0;
    i < events.length; i++) yield events[i] }]: the captured array and the
    loop variable. *)
Record AsyncGenerator (E : Type) := { gen_events : list E; gen_i : nat }.
Arguments gen_events {E} _.
Arguments gen_i {E} _.

Record EventStream (E : Type) := {
  name : string;
  version : Z;
  events : unit → AsyncGenerator E;
}.
Arguments name {E} _.
Arguments version {E} _.
Arguments events {E} _.

(** [g.next()]: the next element, or [None] when the loop has ended. *)
Definition next {E} (g : AsyncGenerator E) : Store (option E * AsyncGenerator E) :=
  mret (match gen_events g !! gen_i g with
        | Some e => (Some e, {| gen_events := gen_events g; gen_i := S (gen_i g) |})
        | None => (None, g)
        end).

(** [for await (const e of g) result.push(e)], as the tests' [copy] does.
    At most [length (gen_events g)] elements are left, so that many rounds
    and one more for the end suffice. *)
Fixpoint copy_rounds {E} (rounds : nat) (g : AsyncGenerator E) (result : list E)
    : Store (list E) :=
  match rounds with
  | O => mret result
  | S rounds' =>
      r ← next g;
      match r.1 with
      | Some e => copy_rounds rounds' r.2 (result ++ [e])%list
      | None => mret result
      end
  end.

Definition copy {E} (g : AsyncGenerator E) : Store (list E) :=
  copy_rounds (S (length (gen_events g))) g [].

(** [v.S || ''] *)
Definition S_or_empty (v : AttributeValue) : string :=
  match v with AttrS s => s | AttrN _ => "" end.

(** [parseInt(v.N || '0')]: the text of a number starts with its integer
    part, which is what [parseInt] reads; without an [N] the text is '0'. *)
Definition parseInt_N_or_0 (v : AttributeValue) : Z :=
  match v with
  | AttrN n => Z.quot (Qnum n) (Z.pos (Qden n))
  | AttrS _ => 0
  end.

Module EventStore.
Section WithPayload.
(** The payload type with [JSON.stringify] and [JSON.parse] on it;
    [JSON_parse s = None] when [JSON.parse(s)] throws. *)
Context {T : Type}.
Variable JSON_stringify : T → string.
Variable JSON_parse : string → option T.
(** [this.#table] *)
Variable table : string.

(** The second guard of the source also tests [update.ExpressionAttributeValues],
    an object that is always there. *)
Definition metadataUpdate (table stream : string) (expectedVersion : Qc) : TransactItem :=
  let update :=
    {| Update_TableName := table;
       Key := {[ "PK" := AttrS stream; "SK" := AttrS "_METADATA" ]};
       UpdateExpression := ADD (NameRef "#version") (ValueRef ":increment");
       ExpressionAttributeNames := {[ "#version" := "VERSION" ]};
       ExpressionAttributeValues := {[ ":increment" := AttrN (Qc_of_Z 1) ]};
       ConditionExpression := None |} in
  let update :=
    if decide (expectedVersion = Version.None)
    then {| Update_TableName := Update_TableName update;
            Key := Key update;
            UpdateExpression := UpdateExpression update;
            ExpressionAttributeNames := ExpressionAttributeNames update;
            ExpressionAttributeValues := ExpressionAttributeValues update;
            ConditionExpression := Some (attribute_not_exists (Attribute "PK")) |}
    else update in
  let update :=
    if decide (Qc_of_Z (-1) < expectedVersion)%Qc
    then {| Update_TableName := Update_TableName update;
            Key := Key update;
            UpdateExpression := UpdateExpression update;
            ExpressionAttributeNames := ExpressionAttributeNames update;
            ExpressionAttributeValues :=
              <[ ":expected" := AttrN expectedVersion ]> (ExpressionAttributeValues update);
            ConditionExpression := Some (Equals (NameRef "#version") (ValueRef ":expected")) |}
    else update in
  TransactUpdate update.

(** [id] is the string drawn from [ksuid.randomSync()]. *)
Definition eventInsert (table stream : string) (event : Event T) (id : string) : TransactItem :=
  TransactPut
    {| Put_TableName := table;
       Put_Item := {[ "PK" := AttrS stream;
                      "SK" := AttrS ("EVENT-" +:+ id);
                      "TYPE" := AttrS (type event);
                      "DATA" := AttrS (JSON_stringify (data event)) ]} |}.

Definition write (stream : string) (event : Event T) (expectedVersion : Qc) (id : string)
    : Store unit :=
  transactWriteItems
    [ metadataUpdate table stream expectedVersion;
      eventInsert table stream event id ].

(** One round of the loop over [result.Items]. *)
Definition read_item (acc : Z * list (Event T)) (item : Item)
    : Exception + (Z * list (Event T)) :=
  let '(version, events) := acc in
  match item !! "VERSION" with
  | Some v => inr (parseInt_N_or_0 v, events)
  | None =>
      match item !! "TYPE" with
      | None => inl TypeError
      | Some ty =>
          match item !! "DATA" with
          | None => inl TypeError
          | Some d =>
              match JSON_parse (S_or_empty d) with
              | None => inl SyntaxError
              | Some x => inr (version, (events ++ [ {| type := S_or_empty ty; data := x |} ])%list)
              end
          end
      end
  end.

Fixpoint read_items (Items : list Item) (acc : Z * list (Event T))
    : Exception + (Z * list (Event T)) :=
  match Items with
  | [] => inr acc
  | item :: rest =>
      match read_item acc item with
      | inl e => inl e
      | inr acc' => read_items rest acc'
      end
  end.

(** The [console.log] of the query result leaves no trace in what [read]
    returns; [result.Items || []] is [Items], which the query always gives. *)
Definition read (stream : string) : Store (EventStream (Event T)) :=
  Items ← query stream;
  match read_items Items (0, []) with
  | inl e => throw e
  | inr (version, events) =>
      mret {| name := stream;
              version := version;
              events := λ _, {| gen_events := events; gen_i := 0 |} |}
  end.

End WithPayload.
End EventStore.
Import EventStore.

(** ** A payload type for the scenarios

    The distances of the test suite: a JavaScript value that is an integer,
    NaN or null, with JSON on these values.  [JSON.stringify] prints an
    integer as its decimal literal and prints NaN, like null, as the text
    null; [JSON.parse] reads null and the decimal literals back and throws on
    a text that is not JSON, such as a lone brace. *)
Module Json.

Inductive value :=
| Num (n : Z)
| NaN
| Null.

#[global] Instance value_eq_dec : EqDecision value.
Proof. solve_decision. Defined.

Definition stringify (v : value) : string :=
  match v with
  | Num n => DecimalString.NilZero.string_of_int (Z.to_int n)
  | NaN | Null => "null"
  end.

Definition parse (s : string) : option value :=
  match DecimalString.NilZero.int_of_string s with
  | Some d =>
      let n := Z.of_int d in
      if decide (stringify (Num n) = s) then Some (Num n) else None
  | None => if decide (s = "null") then Some Null else None
  end.

End Json.

(** ** Vocabulary of the statements *)

(** Entries of a partition compared by sort key. *)
Definition sk_lt (a b : string * Item) : Prop := StringOrder.lt a.1 b.1.

Definition in_partition (pk : string) (kv : (string * string) * Item) : option (string * Item) :=
  if decide (kv.1.1 = pk) then Some (kv.1.2, kv.2) else None.

(** Primary keys of the two kinds of record of a stream. *)
Definition metadata_key (stream : string) : string * string := (stream, "_METADATA").
Definition event_key (stream id : string) : string * string := (stream, "EVENT-" +:+ id).

(** The [Key] of the version step. *)
Definition metadata_Key (stream : string) : Item :=
  {[ "PK" := AttrS stream; "SK" := AttrS "_METADATA" ]}.

(** The version record after [n] accepted writes to a stream that had none. *)
Definition version_item (stream : string) (n : Z) : Item :=
  <[ "VERSION" := AttrN (Qc_of_Z n) ]> (metadata_Key stream).

(** A stream nothing is stored for. *)
Definition fresh (t : Table) (stream : string) : Prop := ∀ sk, t !! (stream, sk) = None.

(** The condition a transaction item carries. *)
Definition condition_of (ti : TransactItem) : option ConditionExpr :=
  match ti with
  | TransactUpdate u => ConditionExpression u
  | TransactPut _ => None
  end.

(** The version the records [Items] give a snapshot: that of the last record
    with a VERSION attribute, 0 without one. *)
Definition last_version (Items : list Item) : Z :=
  default 0 (parseInt_N_or_0 <$> last (omap (.!! "VERSION") Items)).

(** Whether the condition that [metadataUpdate] attaches for [expectedVersion]
    holds of the stored version record. *)
Definition condition_holds (stored : option Item) (expectedVersion : Qc) : bool :=
  if decide (Qc_of_Z (-1) < expectedVersion)%Qc
  then bool_decide (stored ≫= (.!! "VERSION") = Some (AttrN expectedVersion))
  else if decide (expectedVersion = Version.None)
       then bool_decide (stored ≫= (.!! "PK") = None)
       else true.

(** The number the version step adds to: 0 where nothing is stored. *)
Definition stored_version (stored : option Item) : Qc :=
  match stored ≫= (.!! "VERSION") with
  | Some (AttrN n) => n
  | _ => Qc_of_Z 0
  end.

(** The version record after the version step. *)
Definition bumped (stream : string) (stored : option Item) : option Item :=
  let base := default (metadata_Key stream) stored in
  match base !! "VERSION" with
  | None => Some (<[ "VERSION" := AttrN (Qc_of_Z 1) ]> base)
  | Some (AttrN n) => Some (<[ "VERSION" := AttrN (n + Qc_of_Z 1)%Qc ]> base)
  | Some (AttrS _) => None
  end.

Module Vocabulary.
Section WithPayload.
Context {T : Type}.
Variable JSON_stringify : T → string.
Variable JSON_parse : string → option T.
Variable table : string.

(** The record the insert step stores. *)
Definition event_item (stream : string) (event : Event T) (id : string) : Item :=
  {[ "PK" := AttrS stream;
     "SK" := AttrS ("EVENT-" +:+ id);
     "TYPE" := AttrS (type event);
     "DATA" := AttrS (JSON_stringify (data event)) ]}.

(** Serialization followed by decoding gives the payload back. *)
Definition round_trips (x : T) : Prop := JSON_parse (JSON_stringify x) = Some x.

(** The text a payload is serialized to decodes, to whatever value. *)
Definition parses_back (x : T) : Prop := is_Some (JSON_parse (JSON_stringify x)).

(** [ev] is a written event as read back: its type, and the payload its
    serialization decodes to. *)
Definition read_back_of (event ev : Event T) : Prop :=
  type ev = type event ∧ JSON_parse (JSON_stringify (data event)) = Some (data ev).

(** [for (const [event, id] of ws) await store.write(stream, event)], each
    call drawing its identifier: the first rejection ends the sequence. *)
Fixpoint write_each (stream : string) (ws : list (Event T * string)) : Store unit :=
  match ws with
  | [] => mret tt
  | w :: ws' => _ ← write JSON_stringify table stream w.1 Version.Any w.2; write_each stream ws'
  end.

(** The event a record is decoded into when the loop of [read] takes it for
    an event record. *)
Definition decode_event (item : Item) : Exception + Event T :=
  match item !! "TYPE" with
  | None => inl TypeError
  | Some ty =>
      match item !! "DATA" with
      | None => inl TypeError
      | Some d =>
          match JSON_parse (S_or_empty d) with
          | None => inl SyntaxError
          | Some x => inr {| type := S_or_empty ty; data := x |}
          end
      end
  end.

(** Decoding in order, up to the first failure. *)
Fixpoint decode_events (items : list Item) : Exception + list (Event T) :=
  match items with
  | [] => inr []
  | item :: rest =>
      match decode_event item with
      | inl e => inl e
      | inr ev =>
          match decode_events rest with
          | inl e => inl e
          | inr evs => inr (ev :: evs)
          end
      end
  end.

(** The specification's reading of the loop of [read], for comparison: the
    record under the reserved sort key supplies the version, every other
    record is decoded as an event record. *)
Definition read_item_by_sort_key (acc : Z * list (Event T)) (item : Item)
    : Exception + (Z * list (Event T)) :=
  if decide (item !! "SK" = Some (AttrS "_METADATA"))
  then inr (match item !! "VERSION" with Some v => parseInt_N_or_0 v | None => 0 end, acc.2)
  else match decode_event item with
       | inl e => inl e
       | inr ev => inr (acc.1, acc.2 ++ [ev])
       end.

Fixpoint read_items_by_sort_key (Items : list Item) (acc : Z * list (Event T))
    : Exception + (Z * list (Event T)) :=
  match Items with
  | [] => inr acc
  | item :: rest =>
      match read_item_by_sort_key acc item with
      | inl e => inl e
      | inr acc' => read_items_by_sort_key rest acc'
      end
  end.

(** A record the loop of [read] gets past. *)
Definition readable (item : Item) : Prop :=
  is_Some (item !! "VERSION") ∨ ∃ ev, decode_event item = inr ev.

(** What the holder of a snapshot observes of it: its fields, and the
    elements its [events()] yields. *)
Definition observe (snap : EventStream (Event T)) : Store (string * Z * list (Event T)) :=
  evs ← copy (events snap ()); mret (name snap, version snap, evs).

(** What the partition of a stream holds after the writes [ws] to a stream
    that held nothing: the event records under their order keys, then the
    version record. *)
Definition event_entries (stream : string) (ws : list (Event T * string)) : list (string * Item) :=
  (λ w, ("EVENT-" +:+ w.2, event_item stream w.1 w.2)) <$> ws.

Definition version_entry (stream : string) (n : nat) : list (string * Item) :=
  match n with
  | O => []
  | S _ => [("_METADATA", version_item stream (Z.of_nat n))]
  end.

Definition entries_after (stream : string) (ws : list (Event T * string)) : list (string * Item) :=
  (event_entries stream ws ++ version_entry stream (length ws))%list.

(** The table holds exactly the entries [l] for a stream. *)
Definition stream_holds (t : Table) (stream : string) (l : list (string * Item)) : Prop :=
  ∀ sk i, t !! (stream, sk) = Some i ↔ (sk, i) ∈ l.

(** A call of [write], with the identifier it draws. *)
Record WriteCall := {
  call_stream : string;
  call_event : Event T;
  call_expectedVersion : Qc;
  call_id : string;
}.

(** The calls one after the other, each awaited and its rejection caught:
    the outcomes in call order, and the table at the end. *)
Fixpoint run_calls (calls : list WriteCall) (t : Table) : list (Exception + unit) * Table :=
  match calls with
  | [] => ([], t)
  | c :: calls' =>
      let r := write JSON_stringify table (call_stream c) (call_event c)
                     (call_expectedVersion c) (call_id c) t in
      let rs := run_calls calls' r.2 in
      (r.1 :: rs.1, rs.2)
  end.

Definition accepted (outcome : Exception + unit) : bool :=
  match outcome with inr _ => true | inl _ => false end.

(** Whether one of the calls was for the stream and was accepted. *)
Fixpoint accepted_for (stream : string) (calls : list WriteCall)
    (outcomes : list (Exception + unit)) : bool :=
  match calls, outcomes with
  | c :: calls', o :: outcomes' =>
      (bool_decide (call_stream c = stream) && accepted o) || accepted_for stream calls' outcomes'
  | _, _ => false
  end.

End WithPayload.
End Vocabulary.
Import Vocabulary.

(** Every version record carries its partition key. *)
Definition keyed_version_records (t : Table) : Prop :=
  ∀ stream i, t !! metadata_key stream = Some i → is_Some (i !! "PK").

(** A record that carries its sort key, and a VERSION attribute exactly when
    that is the reserved one. *)
Definition tagged (sk : string) (item : Item) : Prop :=
  item !! "SK" = Some (AttrS sk) ∧ (is_Some (item !! "VERSION") ↔ sk = "_METADATA").

Definition tagged_records (t : Table) : Prop :=
  ∀ pk sk item, t !! (pk, sk) = Some item → tagged sk item.

(** ** The scenarios of the test suite

    A store of pony jumps on the table "events"; the payload is the distance
    jumped. *)
Module Scenario.

Definition jump (distance : Z) : Event Json.value :=
  {| type := "PonyJumped"; data := Json.Num distance |}.

Definition store_write : string → Event Json.value → Qc → string → Store unit :=
  write Json.stringify "events".

Definition store_read : string → Store (EventStream (Event Json.value)) :=
  read Json.parse.

(** The table after one and after two writes to the stream "pony". *)
Definition one_jump : Table := (store_write "pony" (jump 5) Version.Any "0001" ∅).2.
Definition two_jumps : Table := (store_write "pony" (jump 6) Version.Any "0002" one_jump).2.

(** An event record whose payload text is not JSON. *)
Definition malformed_record : Item :=
  {[ "PK" := AttrS "pony"; "SK" := AttrS "EVENT-0001";
     "TYPE" := AttrS "PonyJumped"; "DATA" := AttrS "{" ]}.

Definition malformed_table : Table := {[ ("pony", "EVENT-0001") := malformed_record ]}.

(** A record under an event key that carries a VERSION attribute. *)
Definition versioned_event_record : Item :=
  {[ "PK" := AttrS "pony"; "SK" := AttrS "EVENT-0001"; "VERSION" := AttrN (Qc_of_Z 7);
     "TYPE" := AttrS "PonyJumped"; "DATA" := AttrS "5" ]}.

Definition versioned_event_table : Table := {[ ("pony", "EVENT-0001") := versioned_event_record ]}.

(** A jump whose distance is NaN, and the table after writing it. *)
Definition lost_jump : Event Json.value := {| type := "PonyJumped"; data := Json.NaN |}.
Definition lost_jump_written : Table := (store_write "pony" lost_jump Version.Any "0001" ∅).2.

(** The number -0.5. *)
Definition minus_half : Qc := Q2Qc (-1 # 2).

End Scenario.

(** ** The first draft of the store

    The [EventStore] class that the early test file carries with it: [write]
    takes no expected version, builds both requests in place, and stores every
    event under the one sort key 'event'.  Its [read] is the text of the
    current [read] without the [console.log]. *)
Module Draft0.
Section WithPayload.
Context {T : Type}.
Variable JSON_stringify : T → string.
Variable JSON_parse : string → option T.
(** [this.#table] *)
Variable table : string.

Definition write (stream : string) (event : Event T) : Store unit :=
  transactWriteItems
    [ TransactUpdate
        {| Update_TableName := table;
           Key := {[ "PK" := AttrS stream; "SK" := AttrS "_METADATA" ]};
           UpdateExpression := ADD (NameRef "#version") (ValueRef ":increment");
           ExpressionAttributeNames := {[ "#version" := "VERSION" ]};
           ExpressionAttributeValues := {[ ":increment" := AttrN (Qc_of_Z 1) ]};
           ConditionExpression := None |};
      TransactPut
        {| Put_TableName := table;
           Put_Item := {[ "PK" := AttrS stream;
                          "SK" := AttrS "event";
                          "TYPE" := AttrS (type event);
                          "DATA" := AttrS (JSON_stringify (data event)) ]} |} ].

Definition read (stream : string) : Store (EventStream (Event T)) :=
  Items ← query stream;
  match read_items JSON_parse Items (0, []) with
  | inl e => throw e
  | inr (version, events) =>
      mret {| name := stream;
              version := version;
              events := λ _, {| gen_events := events; gen_i := 0 |} |}
  end.

(** The record the insert step of the draft stores. *)
Definition event_item (stream : string) (event : Event T) : Item :=
  {[ "PK" := AttrS stream;
     "SK" := AttrS "event";
     "TYPE" := AttrS (type event);
     "DATA" := AttrS (JSON_stringify (data event)) ]}.

(** [for (const event of es) await store.write(stream, event)] *)
Fixpoint write_each (stream : string) (es : list (Event T)) : Store unit :=
  match es with
  | [] => mret tt
  | event :: es' => _ ← write stream event; write_each stream es'
  end.

End WithPayload.
End Draft0.

(** ** Vocabulary of the further statements *)
Module Histories.


Section WithPayload.
Context {T : Type}.

(** How many of the calls were for the stream and were accepted. *)
Fixpoint accepted_count (stream : string) (calls : list (WriteCall (T:=T)))
    (outcomes : list (Exception + unit)) : nat :=
  match calls, outcomes with
  | c :: calls', o :: outcomes' =>
      ((if bool_decide (call_stream c = stream) && accepted o then 1 else 0)
       + accepted_count stream calls' outcomes')%nat
  | _, _ => O
  end.

End WithPayload.
End Histories.
Import Histories.

(** The version record of a stream after [n] accepted writes: none for 0. *)
Definition version_record (stream : string) (n : nat) : option Item :=
  match n with
  | O => None
  | S _ => Some (version_item stream (Z.of_nat n))
  end.

(** The sort keys under which a stream holds event records. *)
Definition event_keys (t : Table) (stream : string) : list string :=
  filter (λ sk, sk ≠ "_METADATA") (partition_of t stream).*1.

(** The further scenarios *)
Module MoreScenarios.
Import Scenario.

(** Scenario B with the identifiers drawn the other way round. *)
Definition two_jumps_descending : list (Event Json.value * string) :=
  [(jump 5, "0002"); (jump 6, "0001")].

(** Two writes that draw the same identifier. *)
Definition two_jumps_colliding : list (Event Json.value * string) :=
  [(jump 5, "0001"); (jump 6, "0001")].

(** A history: two writes to "pony", one to "unicorn", one rejected. *)
Definition history : list (WriteCall (T:=Json.value)) :=
  [ {| call_stream := "pony"; call_event := jump 5;
       call_expectedVersion := Version.Any; call_id := "0001" |};
    {| call_stream := "unicorn"; call_event := jump 1;
       call_expectedVersion := Version.None; call_id := "0002" |};
    {| call_stream := "pony"; call_event := jump 7;
       call_expectedVersion := Qc_of_Z 5; call_id := "0003" |};
    {| call_stream := "pony"; call_event := jump 6;
       call_expectedVersion := Qc_of_Z 1; call_id := "0004" |} ].

End MoreScenarios.

(** * Facts about the byte order *)
Module StringOrderFacts.
Import StringOrder.

Lemma ascii_compare_refl c : Ascii.compare c c = Eq.
Proof. unfold Ascii.compare. apply N.compare_refl. Qed.

Lemma compare_refl a : String.compare a a = Eq.
Proof. induction a as [|c a IH]; simpl; [done|]. by rewrite ascii_compare_refl. Qed.

Lemma compare_Eq a b : String.compare a b = Eq ↔ a = b.
Proof. split; [apply String.compare_eq_iff | intros ->; apply compare_refl]. Qed.

Lemma compare_Gt a b : String.compare a b = Gt ↔ lt b a.
Proof.
  unfold lt. rewrite (String.compare_antisym b a).
  destruct (String.compare a b); simpl; split; congruence.
Qed.

Lemma lt_irrefl a : ¬ lt a a.
Proof. unfold lt. by rewrite compare_refl. Qed.

Lemma ascii_lt_trans c1 c2 c3 :
  Ascii.compare c1 c2 = Lt → Ascii.compare c2 c3 = Lt → Ascii.compare c1 c3 = Lt.
Proof. unfold Ascii.compare. rewrite !N.compare_lt_iff. lia. Qed.

Lemma lt_trans a b c : lt a b → lt b c → lt a c.
Proof.
  unfold lt. revert b c.
  induction a as [|x a IH]; intros [|y b] [|z c]; simpl; try done.
  destruct (Ascii.compare x y) eqn:Hxy; try done.
  - apply Ascii.compare_eq_iff in Hxy as ->.
    destruct (Ascii.compare y z); try done. apply IH.
  - intros _. destruct (Ascii.compare y z) eqn:Hyz; try done.
    + apply Ascii.compare_eq_iff in Hyz as <-. by rewrite Hxy.
    + by rewrite (ascii_lt_trans _ _ _ Hxy Hyz).
Qed.

Lemma lt_asym a b : lt a b → ¬ lt b a.
Proof. intros H1 H2. exact (lt_irrefl a (lt_trans _ _ _ H1 H2)). Qed.

Lemma lt_neq a b : lt a b → a ≠ b.
Proof. intros H ->. exact (lt_irrefl _ H). Qed.

Lemma trichotomy a b : lt a b ∨ a = b ∨ lt b a.
Proof.
  destruct (String.compare a b) eqn:H.
  - right; left. by apply compare_Eq.
  - by left.
  - right; right. by apply compare_Gt.
Qed.

#[global] Instance lt_strict : StrictOrder lt.
Proof. split; [exact lt_irrefl | exact lt_trans]. Qed.

(** A common prefix does not take part in the comparison. *)
Lemma compare_app p a b : String.compare (p +:+ a) (p +:+ b) = String.compare a b.
Proof. induction p as [|c p IH]; simpl; [done|]. by rewrite ascii_compare_refl. Qed.

End StringOrderFacts.

Module JsonFacts.
Import Json.

Lemma to_int_nonnil n : Z.to_int n ≠ Decimal.Pos Decimal.Nil ∧ Z.to_int n ≠ Decimal.Neg Decimal.Nil.
Proof.
  destruct n as [|p|p]; simpl; split; try discriminate;
    intros [= H]; exact (DecimalPos.Unsigned.to_uint_nonnil p H).
Qed.

(** Integers and null survive serialization; NaN does not. *)
Lemma parse_stringify_Num n : parse (stringify (Num n)) = Some (Num n).
Proof.
  destruct (to_int_nonnil n) as [Hp Hn].
  pose proof (DecimalString.NilZero.isi _ Hp Hn) as Hisi.
  change (DecimalString.NilZero.string_of_int (Z.to_int n)) with (stringify (Num n)) in Hisi.
  unfold parse. rewrite Hisi. simpl.
  rewrite DecimalZ.of_to. by rewrite decide_True.
Qed.

Lemma parse_stringify_Null : parse (stringify Null) = Some Null.
Proof. reflexivity. Qed.

Lemma parse_stringify_NaN : parse (stringify NaN) = Some Null.
Proof. reflexivity. Qed.

End JsonFacts.

(** * Facts about the backend *)
Module DynamoDBFacts.
Import StringOrder StringOrderFacts.

Lemma elem_of_insert_by_sk x y l : x ∈ insert_by_sk y l ↔ x = y ∨ x ∈ l.
Proof.
  induction l as [|z l IH]; simpl.
  - set_solver.
  - case_decide; rewrite ?elem_of_cons, ?IH, ?elem_of_cons; tauto.
Qed.

Lemma elem_of_sort_by_sk x l : x ∈ sort_by_sk l ↔ x ∈ l.
Proof.
  induction l as [|z l IH]; simpl; [done|].
  rewrite elem_of_insert_by_sk, IH, elem_of_cons. done.
Qed.

Lemma insert_by_sk_sorted x l :
  StronglySorted sk_lt l → x.1 ∉ l.*1 → StronglySorted sk_lt (insert_by_sk x l).
Proof.
  induction 1 as [|y l Hl IH Hy]; intros Hx; simpl.
  - repeat constructor.
  - rewrite fmap_cons, not_elem_of_cons in Hx. destruct Hx as [Hxy Hx].
    case_decide as Hlt.
    + constructor; [by apply IH|].
      apply Forall_forall. intros z Hz.
      apply elem_of_insert_by_sk in Hz as [->|Hz]; [done|].
      rewrite Forall_forall in Hy. by apply Hy.
    + assert (lt x.1 y.1) as Hxlt.
      { destruct (trichotomy x.1 y.1) as [?|[?|?]]; done. }
      constructor; [by constructor|].
      constructor; [done|].
      eapply Forall_impl; [exact Hy|]. intros z Hz.
      unfold sk_lt in *. by eapply lt_trans.
Qed.

Lemma sort_by_sk_sorted l : NoDup l.*1 → StronglySorted sk_lt (sort_by_sk l).
Proof.
  induction l as [|x l IH]; simpl; [constructor|].
  rewrite NoDup_cons. intros [Hx Hl].
  apply insert_by_sk_sorted; [by apply IH|].
  intros Hin. apply Hx.
  apply list_elem_of_fmap in Hin as (y & Heq & Hy).
  rewrite elem_of_sort_by_sk in Hy. apply list_elem_of_fmap. by exists y.
Qed.

Lemma sk_lt_sorted_NoDup l : StronglySorted sk_lt l → NoDup l.
Proof.
  induction 1 as [|x l Hl IH Hx]; constructor; [|done].
  intros Hin. rewrite Forall_forall in Hx.
  exact (lt_irrefl _ (Hx _ Hin)).
Qed.

(** A list sorted by sort key is determined by its elements. *)
Lemma sk_lt_sorted_unique l1 l2 :
  StronglySorted sk_lt l1 → StronglySorted sk_lt l2 →
  (∀ x, x ∈ l1 ↔ x ∈ l2) → l1 = l2.
Proof.
  intros H1 H2 Hel.
  apply (StronglySorted_unique_strong sk_lt); [|done|done|].
  - intros x y _ _ Hxy Hyx. by destruct (lt_asym _ _ Hxy).
  - apply NoDup_Permutation; auto using sk_lt_sorted_NoDup.
Qed.

Lemma partition_of_unfold (t : Table) pk :
  partition_of t pk = sort_by_sk (omap (in_partition pk) (map_to_list t)).
Proof. done. Qed.

Lemma elem_of_partition_of (t : Table) pk sk i :
  (sk, i) ∈ partition_of t pk ↔ t !! (pk, sk) = Some i.
Proof.
  rewrite partition_of_unfold, elem_of_sort_by_sk, list_elem_of_omap. split.
  - intros ([[pk' sk'] i'] & Hin & Hf). unfold in_partition in Hf. simpl in Hf.
    case_decide; simplify_eq. by apply elem_of_map_to_list in Hin.
  - intros Hl. exists ((pk, sk), i). split; [by apply elem_of_map_to_list|].
    unfold in_partition. simpl. by rewrite decide_True.
Qed.

Lemma in_partition_NoDup pk (l : list ((string * string) * Item)) :
  NoDup l.*1 → NoDup (omap (in_partition pk) l).*1.
Proof.
  induction l as [|[[pk' sk'] i'] l IH]; simpl; [intros; constructor|].
  rewrite NoDup_cons. intros [Hx Hl].
  unfold in_partition at 1. simpl. case_decide as Hpk; [|by apply IH].
  simpl. apply NoDup_cons. split; [|by apply IH].
  intros Hin. apply Hx.
  apply list_elem_of_fmap in Hin as ([sk i] & Hsk & Hin). simpl in Hsk. subst sk'.
  apply list_elem_of_omap in Hin as ([[pk2 sk2] i2] & Hin & Hf).
  unfold in_partition in Hf. simpl in Hf. case_decide; simplify_eq.
  apply list_elem_of_fmap. by exists ((pk, sk), i).
Qed.

(** The range query returns a partition in ascending order of sort key. *)
Lemma partition_of_sorted (t : Table) pk : StronglySorted sk_lt (partition_of t pk).
Proof.
  rewrite partition_of_unfold. apply sort_by_sk_sorted, in_partition_NoDup.
  apply NoDup_fst_map_to_list.
Qed.

(** Hence the query result is the one sorted list holding the partition. *)
Lemma partition_of_eq (t : Table) pk l :
  StronglySorted sk_lt l →
  (∀ sk i, (sk, i) ∈ l ↔ t !! (pk, sk) = Some i) →
  partition_of t pk = l.
Proof.
  intros Hl Hel. apply sk_lt_sorted_unique; [apply partition_of_sorted|done|].
  intros [sk i]. by rewrite elem_of_partition_of, Hel.
Qed.

Lemma partition_of_fresh (t : Table) pk :
  (∀ sk, t !! (pk, sk) = None) → partition_of t pk = [].
Proof.
  intros Hf. apply partition_of_eq; [constructor|].
  intros sk i. rewrite Hf. set_solver.
Qed.

End DynamoDBFacts.

(** * Facts about the store *)
Import StringOrderFacts DynamoDBFacts.

Lemma next_unfold {E} (g : AsyncGenerator E) (t : Table) :
  next g t = (inr (match gen_events g !! gen_i g with
                   | Some e => (Some e, {| gen_events := gen_events g; gen_i := S (gen_i g) |})
                   | None => (None, g)
                   end), t).
Proof. reflexivity. Qed.

Lemma copy_rounds_spec {E} (rounds : nat) (g : AsyncGenerator E) (result : list E) (t : Table) :
  (length (gen_events g) - gen_i g < rounds)%nat →
  copy_rounds rounds g result t = (inr (result ++ drop (gen_i g) (gen_events g))%list, t).
Proof.
  revert g result. induction rounds as [|n IH]; intros [l i] result Hn; simpl in *; [lia|].
  unfold mbind, Store_bind. rewrite next_unfold. simpl.
  destruct (l !! i) as [e|] eqn:Hl; simpl.
  - pose proof (lookup_lt_Some _ _ _ Hl).
    rewrite IH by (simpl; lia). simpl.
    rewrite (drop_S _ _ _ Hl). by rewrite <-(assoc_L (++)%list).
  - apply lookup_ge_None in Hl. rewrite drop_ge by done. by rewrite (right_id_L [] (++)%list).
Qed.

(** Consuming a generator settles, with the elements from its position on,
    and leaves the table alone. *)
Lemma copy_spec {E} (g : AsyncGenerator E) (t : Table) :
  copy g t = (inr (drop (gen_i g) (gen_events g)), t).
Proof. unfold copy. rewrite copy_rounds_spec by lia. done. Qed.

Section StoreFacts.
Context {T : Type}.
Variable JSON_stringify : T → string.
Variable JSON_parse : string → option T.
Variable table : string.

#[local] Abbreviation write := (write JSON_stringify table).
#[local] Abbreviation read := (read JSON_parse).
#[local] Abbreviation event_item := (event_item JSON_stringify).
#[local] Abbreviation event_entries := (event_entries JSON_stringify).
#[local] Abbreviation entries_after := (entries_after JSON_stringify).
#[local] Abbreviation write_each := (write_each JSON_stringify table).
#[local] Abbreviation round_trips := (round_trips JSON_stringify JSON_parse).
#[local] Abbreviation parses_back := (parses_back JSON_stringify JSON_parse).
#[local] Abbreviation read_back_of := (read_back_of JSON_stringify JSON_parse).
#[local] Abbreviation decode_event := (decode_event JSON_parse).
#[local] Abbreviation decode_events := (decode_events JSON_parse).
#[local] Abbreviation readable := (readable JSON_parse).
#[local] Abbreviation run_calls := (run_calls JSON_stringify table).

(** ** Requests, and how the backend takes them *)

Lemma prepare_eventInsert (t : Table) stream event id :
  prepare t (eventInsert JSON_stringify table stream event id)
  = inr (event_key stream id, event_item stream event id).
Proof. reflexivity. Qed.

Lemma key_of_metadata_Key stream : key_of (metadata_Key stream) = Some (metadata_key stream).
Proof. reflexivity. Qed.

Lemma equals_condition (stored : option Item) (expectedVersion : Qc) :
  match stored ≫= lookup "VERSION" with
  | Some v => bool_decide (v = AttrN expectedVersion)
  | None => false
  end = bool_decide (stored ≫= lookup "VERSION" = Some (AttrN expectedVersion)).
Proof.
  destruct (stored ≫= lookup "VERSION") as [v|]; [|done].
  apply bool_decide_ext. split; congruence.
Qed.

Lemma prepare_metadataUpdate (t : Table) stream expectedVersion :
  prepare t (metadataUpdate table stream expectedVersion)
  = if condition_holds (t !! metadata_key stream) expectedVersion
    then match bumped stream (t !! metadata_key stream) with
         | Some i => inr (metadata_key stream, i)
         | None => inl ValidationError
         end
    else inl ConditionalCheckFailed.
Proof.
  unfold metadataUpdate, condition_holds, bumped.
  destruct (decide (expectedVersion = Version.None)) as [HN|HN];
    destruct (decide (Qc_of_Z (-1) < expectedVersion)%Qc) as [HA|HA]; simpl;
    change {["PK" := AttrS stream; "SK" := AttrS "_METADATA"]} with (metadata_Key stream);
    rewrite key_of_metadata_Key, ?lookup_singleton_eq, ?lookup_insert_eq,
      ?lookup_insert_ne, ?lookup_singleton_eq by done; simpl;
    rewrite ?equals_condition;
    repeat case_match; simplify_eq; try done;
    rewrite ?bool_decide_eq_true, ?bool_decide_eq_false in *; congruence.
Qed.

Lemma metadata_key_ne_event_key stream stream' id : metadata_key stream ≠ event_key stream' id.
Proof. unfold metadata_key, event_key. simpl. intros [= _ H]. Qed.

Lemma write_unfold (t : Table) stream event expectedVersion id :
  write stream event expectedVersion id t
  = match prepare t (metadataUpdate table stream expectedVersion) with
    | inl c => (inl (TransactionCanceledException [c; NoReason]), t)
    | inr w => (inr tt, <[event_key stream id := event_item stream event id]> (<[w.1 := w.2]> t))
    end.
Proof.
  unfold EventStore.write, transactWriteItems. cbv [fmap list_fmap].
  rewrite prepare_eventInsert.
  destruct (prepare t (metadataUpdate table stream expectedVersion)) as [c|w] eqn:Hp; [done|].
  assert (w.1 = metadata_key stream) as Hk.
  { rewrite prepare_metadataUpdate in Hp.
    destruct (condition_holds _ _); [|done].
    destruct (bumped _ _); [|done]. by injection Hp as <-. }
  simpl. rewrite bool_decide_eq_true_2; [done|].
  rewrite Hk. apply NoDup_cons. split; [|apply NoDup_singleton].
  rewrite list_elem_of_singleton. apply metadata_key_ne_event_key.
Qed.

(** An accepted write: what the table holds afterwards. *)
Lemma write_accepted (t t' : Table) stream event expectedVersion id :
  write stream event expectedVersion id t = (inr tt, t') →
  ∃ i, bumped stream (t !! metadata_key stream) = Some i
       ∧ condition_holds (t !! metadata_key stream) expectedVersion = true
       ∧ t' = <[event_key stream id := event_item stream event id]> (<[metadata_key stream := i]> t).
Proof.
  rewrite write_unfold, prepare_metadataUpdate.
  destruct (condition_holds _ _); [|done].
  destruct (bumped _ _) as [i|]; [|done].
  intros [= <-]. eauto.
Qed.

Lemma condition_holds_Any stored : condition_holds stored Version.Any = true.
Proof. reflexivity. Qed.

Lemma condition_holds_None stored :
  condition_holds stored Version.None = bool_decide (stored ≫= lookup "PK" = None).
Proof. reflexivity. Qed.

Lemma condition_holds_expected stored (N : Z) :
  0 ≤ N →
  condition_holds stored (Qc_of_Z N)
  = bool_decide (stored ≫= lookup "VERSION" = Some (AttrN (Qc_of_Z N))).
Proof.
  intros HN. unfold condition_holds. rewrite decide_True; [done|].
  apply (proj1 (Z2Qc_inj_lt (-1) N)). lia.
Qed.

Lemma bumped_None stream : bumped stream None = Some (version_item stream 1).
Proof. reflexivity. Qed.

Lemma bumped_version_item stream n :
  bumped stream (Some (version_item stream n)) = Some (version_item stream (n + 1)).
Proof.
  unfold bumped, version_item. simpl. rewrite lookup_insert_eq, insert_insert_eq.
  by rewrite Z2Qc_inj_add.
Qed.

Lemma bumped_version stream stored i :
  bumped stream stored = Some i →
  i !! "VERSION" = Some (AttrN (stored_version stored + Qc_of_Z 1)%Qc).
Proof.
  unfold bumped, stored_version.
  assert (default (metadata_Key stream) stored !! "VERSION" = stored ≫= lookup "VERSION") as ->.
  { by destruct stored. }
  destruct (stored ≫= lookup "VERSION") as [[s|n]|]; intros [= <-];
    rewrite lookup_insert_eq; [done|].
  by rewrite Z2Qc_inj_0, Qcplus_0_l.
Qed.

Lemma bumped_has_VERSION stream stored i :
  bumped stream stored = Some i → is_Some (i !! "VERSION").
Proof. intros Hb. rewrite (bumped_version _ _ _ Hb). eauto. Qed.

Lemma bumped_keyed stream stored i :
  (∀ item, stored = Some item → is_Some (item !! "PK")) →
  bumped stream stored = Some i → is_Some (i !! "PK").
Proof.
  intros Hk. unfold bumped.
  assert (is_Some (default (metadata_Key stream) stored !! "PK")) as Hb.
  { destruct stored as [item|]; simpl; [by apply Hk|]. by eexists. }
  destruct (default _ _ !! "VERSION") as [[?|n]|]; intros [= <-];
    by rewrite lookup_insert_ne.
Qed.

Lemma event_sk_ne_metadata id : "EVENT-" +:+ id ≠ "_METADATA".
Proof. simpl. intros [=]. Qed.

Lemma event_sk_inj id id' : "EVENT-" +:+ id = "EVENT-" +:+ id' → id = id'.
Proof. simpl. by intros [=]. Qed.

Lemma event_sk_lt_metadata id : StringOrder.lt ("EVENT-" +:+ id) "_METADATA".
Proof. reflexivity. Qed.

Lemma event_item_no_VERSION stream (event : Event T) id :
  event_item stream event id !! "VERSION" = None.
Proof. reflexivity. Qed.

(** ** The loop of [read] *)

Lemma read_unfold (t : Table) stream :
  read stream t
  = match read_items JSON_parse (partition_of t stream).*2 (0, []) with
    | inl e => (inl e, t)
    | inr acc =>
        (inr {| name := stream;
                version := acc.1;
                events := λ _, {| gen_events := acc.2; gen_i := 0 |} |}, t)
    end.
Proof.
  unfold EventStore.read, mbind, Store_bind, query.
  destruct (read_items _ _ _) as [e|[v evs]]; done.
Qed.

Lemma read_items_cons (i : Item) (l : list Item) acc :
  read_items JSON_parse (i :: l) acc
  = match read_item JSON_parse acc i with
    | inl e => inl e
    | inr acc' => read_items JSON_parse l acc'
    end.
Proof. reflexivity. Qed.

Lemma read_items_app (l1 l2 : list Item) acc :
  read_items JSON_parse (l1 ++ l2) acc
  = match read_items JSON_parse l1 acc with
    | inl e => inl e
    | inr acc' => read_items JSON_parse l2 acc'
    end.
Proof.
  revert acc. induction l1 as [|i l1 IH]; intros acc; simpl; [done|].
  destruct (read_item _ _ _); [done|]. apply IH.
Qed.

Lemma read_item_decode acc (item : Item) :
  read_item JSON_parse acc item
  = match item !! "VERSION" with
    | Some v => inr (parseInt_N_or_0 v, acc.2)
    | None =>
        match decode_event item with
        | inl e => inl e
        | inr ev => inr (acc.1, acc.2 ++ [ev])
        end
    end.
Proof.
  destruct acc as [v evs]. unfold read_item, decode_event, Vocabulary.decode_event.
  repeat case_match; done.
Qed.

Lemma read_items_readable (l : list Item) : ∀ acc,
  (∃ r, read_items JSON_parse l acc = inr r) ↔ Forall readable l.
Proof.
  induction l as [|item l IH]; intros acc.
  - simpl. split; [constructor|eauto].
  - rewrite read_items_cons, read_item_decode, Forall_cons.
    unfold readable at 1, Vocabulary.readable.
    destruct (item !! "VERSION") as [v|] eqn:Hv.
    + rewrite IH. split; [intros ?; split; eauto|tauto].
    + destruct (decode_event item) as [e|ev] eqn:Hd.
      * split; [by intros [r ?]|]. intros [[[? [=]]|[ev [=]]] _].
      * rewrite IH. split; [intros ?; split; eauto|tauto].
Qed.

Lemma read_items_keeps (l : list Item) : ∀ acc r ev,
  read_items JSON_parse l acc = inr r → ev ∈ acc.2 → ev ∈ r.2.
Proof.
  induction l as [|item l IH]; intros acc r ev.
  - simpl. by intros [= <-].
  - rewrite read_items_cons, read_item_decode.
    destruct (item !! "VERSION") as [v|].
    + intros Hr Hev. by apply (IH _ _ _ Hr).
    + destruct (decode_event item) as [e|ev']; [done|].
      intros Hr Hev. apply (IH _ _ _ Hr). simpl. apply elem_of_app. by left.
Qed.

Lemma read_items_elem (l : list Item) : ∀ acc r item ev,
  read_items JSON_parse l acc = inr r →
  item ∈ l → item !! "VERSION" = None → decode_event item = inr ev →
  ev ∈ r.2.
Proof.
  induction l as [|item' l IH]; intros acc r item ev Hr Hin Hv Hd.
  - by apply elem_of_nil in Hin.
  - rewrite read_items_cons, read_item_decode in Hr.
    apply elem_of_cons in Hin as [<-|Hin].
    + rewrite Hv, Hd in Hr. apply (read_items_keeps _ _ _ _ Hr).
      simpl. apply elem_of_app. right. by apply list_elem_of_singleton.
    + destruct (item' !! "VERSION") as [v|]; [by eapply IH|].
      destruct (decode_event item') as [e|ev']; [done|]. by eapply IH.
Qed.

Lemma read_items_error (l : list Item) : ∀ acc e,
  read_items JSON_parse l acc = inl e → e = SyntaxError ∨ e = TypeError.
Proof.
  induction l as [|item l IH]; intros acc e; [done|].
  rewrite read_items_cons, read_item_decode.
  destruct (item !! "VERSION") as [v|]; [apply IH|].
  unfold decode_event, Vocabulary.decode_event.
  destruct (item !! "TYPE"); [|intros [= <-]; by right].
  destruct (item !! "DATA"); [|intros [= <-]; by right].
  destruct (JSON_parse _); [apply IH|intros [= <-]; by left].
Qed.

Lemma read_items_partition (l : list Item) : ∀ v0 evs0,
  read_items JSON_parse l (v0, evs0)
  = match decode_events (filter (λ i : Item, i !! "VERSION" = None) l) with
    | inl e => inl e
    | inr evs =>
        inr (default v0 (parseInt_N_or_0 <$> last (omap (.!! "VERSION") l)), evs0 ++ evs)
    end.
Proof.
  induction l as [|item l IH]; intros v0 evs0.
  - simpl. by rewrite (right_id_L [] (++)).
  - rewrite read_items_cons, read_item_decode. simpl omap.
    destruct (item !! "VERSION") as [v|] eqn:Hv.
    + rewrite filter_cons_False by (rewrite Hv; done).
      rewrite IH. destruct (decode_events _) as [e|evs]; [done|].
      rewrite last_cons. simpl. by destruct (last _).
    + rewrite filter_cons_True by done. simpl.
      destruct (decode_event item) as [e|ev]; [done|].
      rewrite IH. simpl. destruct (decode_events _) as [e|evs]; [done|].
      by rewrite <-(assoc_L (++)).
Qed.

Lemma parseInt_of_Z n : parseInt_N_or_0 (AttrN (Qc_of_Z n)) = n.
Proof. simpl. apply Z.quot_1_r. Qed.

(** ** The write protocol *)

(** C2.  A write is all or nothing.  Either the call is rejected and the
    table is exactly what it was (no version bumped, no event stored), or it
    is accepted and both steps are in the table: the version record holds the
    stored version plus one, the event record is stored under its key, and no
    other record has changed.  When the condition of the version step does not
    hold the call is rejected with that reason. *)
Theorem write_all_or_nothing (t : Table) stream event expectedVersion id :
  let r := write stream event expectedVersion id t in
  ((∃ c, c ≠ NoReason ∧ r = (inl (TransactionCanceledException [c; NoReason]), t))
   ∨ (r.1 = inr tt
      ∧ r.2 !! metadata_key stream ≫= lookup "VERSION"
        = Some (AttrN (stored_version (t !! metadata_key stream) + Qc_of_Z 1)%Qc)
      ∧ r.2 !! event_key stream id = Some (event_item stream event id)
      ∧ ∀ k, k ≠ metadata_key stream → k ≠ event_key stream id → r.2 !! k = t !! k))
  ∧ (condition_holds (t !! metadata_key stream) expectedVersion = false →
     r = (inl (TransactionCanceledException [ConditionalCheckFailed; NoReason]), t)).
Proof.
  intros r. subst r. rewrite write_unfold, prepare_metadataUpdate.
  destruct (condition_holds _ _); [|split; [left; eexists; split; [|done]|]; done].
  split; [|done].
  destruct (bumped stream (t !! metadata_key stream)) as [i|] eqn:Hb.
  - right. simpl. split; [done|].
    rewrite lookup_insert_ne by (symmetry; apply metadata_key_ne_event_key).
    rewrite lookup_insert_eq. simpl.
    split; [by eapply bumped_version|].
    split; [by rewrite lookup_insert_eq|].
    intros k Hk1 Hk2. by rewrite !lookup_insert_ne.
  - left. eexists. split; [|done]. done.
Qed.

(** The part of C3 the code keeps: on a stream whose version record stores
    the number [v], a write expecting the version [N] is accepted when [v] is
    [N] and rejected for its condition otherwise. *)
Lemma expected_version_on_version_record (t : Table) stream event id (N : Z) (item : Item) v :
  0 ≤ N →
  t !! metadata_key stream = Some item →
  item !! "VERSION" = Some (AttrN v) →
  write stream event (Qc_of_Z N) id t
  = if decide (v = Qc_of_Z N)
    then (inr tt, <[event_key stream id := event_item stream event id]>
                    (<[metadata_key stream :=
                         <["VERSION" := AttrN (v + Qc_of_Z 1)%Qc]> item]> t))
    else (inl (TransactionCanceledException [ConditionalCheckFailed; NoReason]), t).
Proof.
  intros HN Ht Hv.
  rewrite write_unfold, prepare_metadataUpdate, condition_holds_expected by done.
  rewrite Ht. simpl. rewrite Hv.
  destruct (decide (v = Qc_of_Z N)) as [->|Hne].
  - rewrite bool_decide_eq_true_2 by done. unfold bumped. simpl. by rewrite Hv.
  - rewrite bool_decide_eq_false_2 by congruence. done.
Qed.

(** C3, where the code departs from it.  For a stream nothing was written
    to, [read] reports version 0, yet a write that expects a version [N ≥ 0],
    0 included, is rejected for its condition and leaves the table as it is:
    the comparison is made against a version record that is not there. *)
Theorem expected_version_rejected_on_unwritten_stream (t : Table) stream event id (N : Z) :
  fresh t stream →
  0 ≤ N →
  (snap ← read stream; mret (version snap)) t = (inr 0, t)
  ∧ write stream event (Qc_of_Z N) id t
    = (inl (TransactionCanceledException [ConditionalCheckFailed; NoReason]), t).
Proof.
  intros Hf HN. split.
  - unfold mbind, Store_bind. rewrite read_unfold, (partition_of_fresh t stream Hf). done.
  - rewrite write_unfold, prepare_metadataUpdate, condition_holds_expected by done.
    unfold metadata_key. rewrite Hf. done.
Qed.

Lemma write_version_records (t : Table) stream event expectedVersion id :
  keyed_version_records t →
  let r := write stream event expectedVersion id t in
  keyed_version_records r.2
  ∧ ∀ s, is_Some (r.2 !! metadata_key s)
         ↔ is_Some (t !! metadata_key s) ∨ (s = stream ∧ accepted r.1 = true).
Proof.
  intros Hk r. subst r. rewrite write_unfold, prepare_metadataUpdate.
  destruct (condition_holds _ _); [|simpl; split; [done|]; intros s; intuition congruence].
  destruct (bumped stream _) as [i|] eqn:Hb;
    [|simpl; split; [done|]; intros s; intuition congruence].
  simpl. split.
  - intros s j. rewrite lookup_insert_ne by (symmetry; apply metadata_key_ne_event_key).
    destruct (decide (s = stream)) as [->|Hs].
    + rewrite lookup_insert_eq. intros [= <-].
      eapply bumped_keyed; [|exact Hb]. intros item Hi. by eapply Hk.
    + rewrite lookup_insert_ne by (unfold metadata_key; congruence). apply Hk.
  - intros s. rewrite lookup_insert_ne by (symmetry; apply metadata_key_ne_event_key).
    destruct (decide (s = stream)) as [->|Hs].
    + rewrite lookup_insert_eq. split; [intros _; by right|by eexists].
    + rewrite lookup_insert_ne by (unfold metadata_key; congruence). intuition congruence.
Qed.

Lemma run_calls_version_records calls : ∀ (t : Table),
  keyed_version_records t →
  let r := run_calls calls t in
  keyed_version_records r.2
  ∧ ∀ s, is_Some (r.2 !! metadata_key s)
         ↔ is_Some (t !! metadata_key s) ∨ accepted_for s calls r.1 = true.
Proof.
  induction calls as [|c calls IH]; intros t Hk; simpl.
  - split; [done|]. intros s. intuition congruence.
  - destruct (write_version_records t (call_stream c) (call_event c)
                (call_expectedVersion c) (call_id c) Hk) as [Hk1 Hv1].
    destruct (IH _ Hk1) as [Hk2 Hv2]. split; [done|].
    intros s. rewrite Hv2, Hv1, orb_true_iff, andb_true_iff, bool_decide_eq_true.
    intuition congruence.
Qed.

(** C4.  Whatever calls of [write] came before, in whatever order, on a table
    that started empty: a write with [Version.None] is accepted when none of
    them was an accepted write to that stream, and is rejected for its
    condition, leaving the table as it is, when one was. *)
Theorem None_accepted_for_first_write_only (calls : list (WriteCall (T:=T))) stream event id :
  let r := run_calls calls ∅ in
  write stream event Version.None id r.2
  = if accepted_for stream calls r.1
    then (inl (TransactionCanceledException [ConditionalCheckFailed; NoReason]), r.2)
    else (inr tt, <[event_key stream id := event_item stream event id]>
                    (<[metadata_key stream := version_item stream 1]> r.2)).
Proof.
  intros r. subst r.
  destruct (run_calls_version_records calls ∅) as [Hk Hv].
  { intros s i. by rewrite lookup_empty. }
  specialize (Hv stream). rewrite lookup_empty in Hv.
  rewrite write_unfold, prepare_metadataUpdate, condition_holds_None.
  destruct (accepted_for stream calls _) eqn:Hacc.
  - destruct ((run_calls calls ∅).2 !! metadata_key stream) as [i|] eqn:Hi.
    + destruct (Hk _ _ Hi) as [pk Hpk]. simpl. rewrite Hpk.
      by rewrite (bool_decide_eq_false_2 (Some pk = None)).
    + destruct Hv as [_ Hv]. destruct Hv as [? [=]]. by right.
  - destruct ((run_calls calls ∅).2 !! metadata_key stream) as [i|] eqn:Hi.
    + destruct Hv as [Hv _]. destruct Hv as [[? [=]]|[=]]. by eexists.
    + reflexivity.
Qed.

(** C10 (as the code has it).  An expected version that is at most -1 and is
    not [Version.None] passes neither guard of [metadataUpdate]: the request is
    the one built for [Version.Any], it carries no condition, and the write
    does what a write with [Version.Any] does. *)
Theorem at_most_minus_one_is_Any (expectedVersion : Qc) stream :
  (expectedVersion ≤ Qc_of_Z (-1))%Qc →
  expectedVersion ≠ Version.None →
  metadataUpdate table stream expectedVersion = metadataUpdate table stream Version.Any
  ∧ condition_of (metadataUpdate table stream expectedVersion) = None
  ∧ ∀ event id (t : Table),
      write stream event expectedVersion id t = write stream event Version.Any id t.
Proof.
  intros Hle Hne.
  assert (metadataUpdate table stream expectedVersion
          = metadataUpdate table stream Version.Any) as Heq.
  { unfold metadataUpdate at 1.
    destruct (decide (expectedVersion = Version.None)) as [?|_]; [done|].
    destruct (decide (Qc_of_Z (-1) < expectedVersion)%Qc) as [Hlt|_]; [|reflexivity].
    by destruct (Qcle_not_lt _ _ Hle). }
  split; [done|]. split; [by rewrite Heq|].
  intros event id t. unfold EventStore.write. by rewrite Heq.
Qed.

(** ** Reading *)

Lemma fresh_empty stream : fresh ∅ stream.
Proof. intros sk. apply lookup_empty. Qed.

Lemma fresh_write_other (t : Table) stream stream' event expectedVersion id :
  fresh t stream → stream ≠ stream' →
  fresh (write stream' event expectedVersion id t).2 stream.
Proof.
  intros Hf Hne sk. rewrite write_unfold.
  destruct (prepare t _) as [c|w] eqn:Hp; simpl; [apply Hf|].
  rewrite prepare_metadataUpdate in Hp.
  destruct (condition_holds _ _); [|done]. destruct (bumped _ _); [|done].
  injection Hp as <-. simpl. unfold event_key, metadata_key.
  rewrite !lookup_insert_ne by congruence. apply Hf.
Qed.

(** C5.  Reading a stream nothing was ever written to returns the snapshot
    with that name, version 0 and no events, which is also what the read of
    that name returns on a table that holds nothing at all. *)
Theorem read_unwritten_stream (t : Table) stream :
  fresh t stream →
  read stream t
  = (inr {| name := stream;
            version := 0;
            events := λ _, {| gen_events := []; gen_i := 0 |} |}, t)
  ∧ (read stream t).1 = (read stream ∅).1.
Proof.
  intros Hf. rewrite !read_unfold.
  rewrite (partition_of_fresh t stream Hf).
  rewrite (partition_of_fresh ∅ stream) by (intros sk; apply lookup_empty).
  done.
Qed.

Lemma sk_lt_sorted_keys (l : list (string * Item)) :
  StronglySorted sk_lt l → StronglySorted StringOrder.lt l.*1.
Proof.
  induction 1 as [|x l Hl IH Hx]; simpl; constructor; [done|].
  apply Forall_fmap. eapply Forall_impl; [exact Hx|]. done.
Qed.

(** C8 (as the code has it).  The records of the range fetch arrive in
    ascending order of sort key, and [read] divides them by the presence of a
    VERSION attribute: the last record that has one supplies the version, and
    the records without one are decoded as event records, in the order they
    arrived; the first that fails to decode fails the read. *)
Theorem read_partitions_by_VERSION_attribute (t : Table) stream :
  let Items := (partition_of t stream).*2 in
  StronglySorted StringOrder.lt (partition_of t stream).*1
  ∧ (read stream t).1
    = match decode_events (filter (λ i : Item, i !! "VERSION" = None) Items) with
      | inl e => inl e
      | inr evs =>
          inr {| name := stream;
                 version := last_version Items;
                 events := λ _, {| gen_events := evs; gen_i := 0 |} |}
      end.
Proof.
  intros Items. split; [apply sk_lt_sorted_keys, partition_of_sorted|].
  rewrite read_unfold. fold Items. rewrite read_items_partition.
  destruct (decode_events _) as [e|evs]; done.
Qed.

(** The records [write] stores are tagged. *)
Lemma bumped_tagged stream stored i :
  (∀ item, stored = Some item → tagged "_METADATA" item) →
  bumped stream stored = Some i → tagged "_METADATA" i.
Proof.
  intros Ht Hb. split; [|split; [done|intros _; by eapply bumped_has_VERSION]].
  assert (default (metadata_Key stream) stored !! "SK" = Some (AttrS "_METADATA")) as Hsk.
  { destruct stored as [item|]; simpl; [by apply Ht|done]. }
  unfold bumped in Hb.
  destruct (default _ _ !! "VERSION") as [[?|n]|]; simplify_eq;
    by rewrite lookup_insert_ne.
Qed.

Lemma event_item_tagged stream (event : Event T) id :
  tagged ("EVENT-" +:+ id) (event_item stream event id).
Proof.
  split; [done|]. rewrite event_item_no_VERSION. split.
  - by intros [? [=]].
  - intros H. by apply event_sk_ne_metadata in H.
Qed.

Lemma write_tagged (t : Table) stream event expectedVersion id :
  tagged_records t → tagged_records (write stream event expectedVersion id t).2.
Proof.
  intros Ht. rewrite write_unfold, prepare_metadataUpdate.
  destruct (condition_holds _ _); [|done].
  destruct (bumped stream _) as [i|] eqn:Hb; [|done].
  simpl. intros pk sk item.
  destruct (decide (event_key stream id = (pk, sk))) as [Heq|Hne].
  { rewrite <-Heq, lookup_insert_eq. intros [= <-].
    injection Heq as _ <-. apply event_item_tagged. }
  rewrite lookup_insert_ne by done.
  destruct (decide (metadata_key stream = (pk, sk))) as [Heq|Hne'].
  { rewrite <-Heq, lookup_insert_eq. intros [= <-].
    injection Heq as _ <-. eapply bumped_tagged; [|exact Hb].
    intros item Hi. by eapply Ht. }
  rewrite lookup_insert_ne by done. apply Ht.
Qed.

Lemma run_calls_tagged calls : ∀ (t : Table),
  tagged_records t → tagged_records (run_calls calls t).2.
Proof.
  induction calls as [|c calls IH]; intros t Ht; simpl; [done|].
  apply IH. by apply write_tagged.
Qed.

Lemma read_item_tagged sk (item : Item) acc :
  tagged sk item →
  read_item JSON_parse acc item = read_item_by_sort_key JSON_parse acc item.
Proof.
  intros [Hsk Hv]. rewrite read_item_decode. unfold read_item_by_sort_key. rewrite Hsk.
  destruct (item !! "VERSION") as [v|].
  - assert (sk = "_METADATA") as -> by (apply Hv; by eexists). by case_decide.
  - case_decide as Heq; [|done]. injection Heq as ->. destruct Hv as [_ [? [=]]]. done.
Qed.

(** On the records that writes to an empty table leave, dividing by the
    VERSION attribute and dividing by the sort key are the same reading. *)
Lemma written_records_read_alike (calls : list (WriteCall (T:=T))) stream :
  let Items := (partition_of (run_calls calls ∅).2 stream).*2 in
  read_items JSON_parse Items (0, []) = read_items_by_sort_key JSON_parse Items (0, []).
Proof.
  intros Items.
  assert (Forall (λ item, ∃ sk, tagged sk item) Items) as Ht.
  { apply Forall_forall. intros item Hin.
    apply list_elem_of_fmap in Hin as ([sk item'] & -> & Hin).
    apply elem_of_partition_of in Hin. exists sk.
    eapply (run_calls_tagged calls ∅); [|exact Hin].
    intros pk sk' i. by rewrite lookup_empty. }
  generalize (0, @nil (Event T)). induction Ht as [|item l [sk Hi] _ IH]; intros acc; [done|].
  simpl. rewrite (read_item_tagged sk) by done.
  destruct (read_item_by_sort_key _ _ _); [done|]. apply IH.
Qed.

(** C7 (as the code has it).  Decoding happens inside [read]: when a record
    of the stream without a VERSION attribute holds a payload that does not
    decode, the read call itself is rejected.  The sequence of a snapshot that
    [read] did return holds decoded events only: consuming it, in whatever
    state the table is by then, yields them all and raises nothing. *)
Theorem malformed_payload_rejects_read (t : Table) stream sk (item : Item) d :
  t !! (stream, sk) = Some item →
  item !! "VERSION" = None →
  item !! "DATA" = Some d →
  JSON_parse (S_or_empty d) = None →
  (∃ e, (e = SyntaxError ∨ e = TypeError) ∧ read stream t = (inl e, t))
  ∧ ∀ (t0 t2 : Table) stream0 snap,
      read stream0 t0 = (inr snap, t0) →
      copy (events snap ()) t2 = (inr (gen_events (events snap ())), t2).
Proof.
  intros Ht Hv Hd Hp. split.
  - rewrite read_unfold.
    destruct (read_items _ _ _) as [e|r] eqn:Hr; [eauto using read_items_error|].
    assert (Forall readable (partition_of t stream).*2) as Hok.
    { apply (read_items_readable _ (0, [])). eauto. }
    rewrite Forall_forall in Hok.
    destruct (Hok item) as [[v Hv']|[ev Hev]].
    + apply list_elem_of_fmap. exists (sk, item). split; [done|].
      by apply elem_of_partition_of.
    + congruence.
    + unfold decode_event, Vocabulary.decode_event in Hev.
      rewrite Hd, Hp in Hev. by destruct (item !! "TYPE").
  - intros t0 t2 stream0 snap. rewrite read_unfold.
    destruct (read_items _ _ _) as [e|r]; [done|].
    intros [= <-]. by rewrite copy_spec.
Qed.

(** C9.  A snapshot is a view of the moment of the read: what its holder
    observes of it (name, version, and the events its sequence yields) after
    a later write to the stream is what was observed before that write. *)
Theorem snapshot_unchanged_by_write (t : Table) stream snap event expectedVersion id :
  read stream t = (inr snap, t) →
  let t' := (write stream event expectedVersion id t).2 in
  (observe snap t').1 = (observe snap t).1
  ∧ observe snap t' = (inr (stream, version snap, gen_events (events snap ())), t').
Proof.
  rewrite read_unfold. destruct (read_items _ _ _) as [e|r]; [done|].
  intros [= <-] t'. unfold observe, mbind, Store_bind. rewrite !copy_spec. done.
Qed.

(** ** Writing, then reading *)

Lemma elem_of_event_entries stream ws sk i :
  (sk, i) ∈ event_entries stream ws
  ↔ ∃ w, w ∈ ws ∧ sk = "EVENT-" +:+ w.2 ∧ i = event_item stream w.1 w.2.
Proof.
  unfold event_entries, Vocabulary.event_entries. rewrite list_elem_of_fmap. split.
  - intros (w & [= -> ->] & Hw). eauto.
  - intros (w & Hw & -> & ->). eauto.
Qed.

Lemma elem_of_version_entry stream n sk i :
  (sk, i) ∈ version_entry stream n
  ↔ n ≠ O ∧ sk = "_METADATA" ∧ i = version_item stream (Z.of_nat n).
Proof.
  destruct n as [|n]; simpl.
  - rewrite elem_of_nil. tauto.
  - rewrite list_elem_of_singleton. split; [by intros [= -> ->]|by intros (_ & -> & ->)].
Qed.

Lemma stream_holds_metadata (t : Table) stream ws :
  stream_holds t stream (entries_after stream ws) →
  t !! metadata_key stream
  = match ws with [] => None | _ => Some (version_item stream (Z.of_nat (length ws))) end.
Proof.
  intros Hh. unfold metadata_key.
  destruct (t !! (stream, "_METADATA")) as [i|] eqn:Ht.
  - apply Hh in Ht. unfold entries_after, Vocabulary.entries_after in Ht.
    rewrite elem_of_app, elem_of_event_entries, elem_of_version_entry in Ht.
    destruct Ht as [(w & _ & Hsk & _)|(Hn & _ & ->)].
    + symmetry in Hsk. by apply event_sk_ne_metadata in Hsk.
    + by destruct ws.
  - destruct ws as [|w ws]; [done|]. rewrite <-Ht.
    apply Hh. unfold entries_after, Vocabulary.entries_after.
    rewrite elem_of_app, elem_of_version_entry. right. simpl. done.
Qed.

(** One unconditional write to a stream that holds the entries of the writes
    [pre], with an identifier none of them drew. *)
Lemma write_Any_step (t : Table) stream pre event id :
  stream_holds t stream (entries_after stream pre) →
  (∀ w, w ∈ pre → w.2 ≠ id) →
  ∃ t', write stream event Version.Any id t = (inr tt, t')
        ∧ stream_holds t' stream (entries_after stream (pre ++ [(event, id)]))
        ∧ ∀ pk sk, pk ≠ stream → t' !! (pk, sk) = t !! (pk, sk).
Proof.
  intros Hh Hid. rewrite write_unfold, prepare_metadataUpdate, condition_holds_Any.
  rewrite (stream_holds_metadata _ _ _ Hh).
  assert (∃ i, match pre with
               | [] => bumped stream None
               | _ => bumped stream (Some (version_item stream (Z.of_nat (length pre))))
               end = Some i
               ∧ i = version_item stream (Z.of_nat (length (pre ++ [(event, id)]))))
    as (i & Hb & Hi).
  { rewrite length_app. simpl. eexists. split; [|reflexivity].
    destruct pre as [|w pre]; [done|].
    rewrite bumped_version_item. do 2 f_equal. simpl length. lia. }
  assert (match pre with
          | [] => bumped stream None
          | _ => bumped stream (Some (version_item stream (Z.of_nat (length pre))))
          end = bumped stream match pre with
                              | [] => None
                              | _ => Some (version_item stream (Z.of_nat (length pre)))
                              end) as Hm by (by destruct pre).
  rewrite <-Hm, Hb. simpl. eexists. split; [done|]. split.
  - intros sk i'. unfold entries_after, Vocabulary.entries_after.
    rewrite elem_of_app, elem_of_event_entries, elem_of_version_entry.
    unfold event_key, metadata_key.
    destruct (decide (sk = "EVENT-" +:+ id)) as [->|Hsk].
    { rewrite lookup_insert_eq. split.
      - intros [= <-]. left. exists (event, id). rewrite elem_of_app, list_elem_of_singleton. eauto.
      - intros [(w & Hw & Hw2 & ->)|(_ & Hw & _)].
        + apply event_sk_inj in Hw2. rewrite elem_of_app, list_elem_of_singleton in Hw.
          destruct Hw as [Hw| ->]; [by destruct (Hid _ Hw)|done].
        + by apply event_sk_ne_metadata in Hw. }
    rewrite lookup_insert_ne by congruence.
    destruct (decide (sk = "_METADATA")) as [->|Hsk'].
    { rewrite lookup_insert_eq. subst i. split.
      - intros [= <-]. right. split; [|done]. rewrite length_app. simpl. lia.
      - intros [(w & _ & Hw & _)|(_ & _ & ->)]; [|done].
        symmetry in Hw. by apply event_sk_ne_metadata in Hw. }
    rewrite lookup_insert_ne by congruence.
    rewrite (Hh sk i'). unfold entries_after, Vocabulary.entries_after.
    rewrite elem_of_app, elem_of_event_entries, elem_of_version_entry. split.
    + intros [(w & Hw & -> & ->)|(_ & -> & _)]; [|done].
      left. exists w. rewrite elem_of_app. eauto.
    + intros [(w & Hw & -> & ->)|(_ & -> & _)]; [|done].
      rewrite elem_of_app, list_elem_of_singleton in Hw. destruct Hw as [Hw| ->]; [|done].
      left. eauto.
  - intros pk sk Hpk. unfold event_key, metadata_key.
    rewrite !lookup_insert_ne by congruence. done.
Qed.

Lemma write_each_spec stream ws : ∀ pre (t : Table),
  stream_holds t stream (entries_after stream pre) →
  NoDup (pre ++ ws).*2 →
  ∃ t', write_each stream ws t = (inr tt, t')
        ∧ stream_holds t' stream (entries_after stream (pre ++ ws))
        ∧ ∀ pk sk, pk ≠ stream → t' !! (pk, sk) = t !! (pk, sk).
Proof.
  induction ws as [|[event id] ws IH]; intros pre t Hh Hnd.
  - exists t. rewrite (right_id_L [] (++)%list). done.
  - assert (∀ w, w ∈ pre → w.2 ≠ id) as Hid.
    { intros w Hw Heq. rewrite fmap_app, fmap_cons in Hnd.
      apply NoDup_app in Hnd as (_ & Hnd & _). apply (Hnd id).
      - apply list_elem_of_fmap. by exists w.
      - simpl. left. }
    destruct (write_Any_step t stream pre event id Hh Hid) as (t1 & Hw & Hh1 & Ho1).
    destruct (IH (pre ++ [(event, id)])%list t1 Hh1) as (t2 & Hws & Hh2 & Ho2).
    { by rewrite <-(assoc_L (++)%list). }
    exists t2. split; [|split].
    + simpl. unfold mbind, Store_bind. by rewrite Hw.
    + by rewrite <-(assoc_L (++)%list) in Hh2.
    + intros pk sk Hpk. by rewrite Ho2, Ho1.
Qed.

Lemma stream_holds_fresh (t : Table) stream :
  stream_holds t stream (entries_after stream []) ↔ fresh t stream.
Proof.
  unfold stream_holds, fresh. simpl. split.
  - intros Hh sk. destruct (t !! (stream, sk)) as [i|] eqn:Ht; [|done].
    apply Hh in Ht. by apply elem_of_nil in Ht.
  - intros Hf sk i. rewrite Hf, elem_of_nil. split; [done|tauto].
Qed.

Lemma sorted_NoDup (ids : list string) : StronglySorted StringOrder.lt ids → NoDup ids.
Proof.
  induction 1 as [|x l Hl IH Hx]; constructor; [|done].
  intros Hin. rewrite Forall_forall in Hx. exact (lt_irrefl _ (Hx _ Hin)).
Qed.

Lemma event_entries_sorted stream ws :
  StronglySorted StringOrder.lt ws.*2 → StronglySorted sk_lt (event_entries stream ws).
Proof.
  induction ws as [|w ws IH]; simpl; [constructor|].
  rewrite !StronglySorted_cons. intros [Hw Hws]. split; [|by apply IH].
  rewrite Forall_forall in Hw. apply Forall_forall. intros [sk i] Hin.
  apply elem_of_event_entries in Hin as (w' & Hw' & -> & ->).
  unfold sk_lt, StringOrder.lt. simpl fst. rewrite compare_app.
  apply Hw. apply list_elem_of_fmap. by exists w'.
Qed.

(** The entries left by writes whose identifiers ascend are in the order of
    the writes, the version record last. *)
Lemma entries_after_sorted stream ws :
  StronglySorted StringOrder.lt ws.*2 → StronglySorted sk_lt (entries_after stream ws).
Proof.
  intros Hs. apply StronglySorted_app_2.
  - intros [sk i] [sk' i'] Hin Hin'.
    apply elem_of_event_entries in Hin as (w & _ & -> & _).
    apply elem_of_version_entry in Hin' as (_ & -> & _).
    apply event_sk_lt_metadata.
  - by apply event_entries_sorted.
  - destruct (length ws); repeat constructor.
Qed.

Lemma read_item_event_item stream event id acc y :
  JSON_parse (JSON_stringify (data event)) = Some y →
  read_item JSON_parse acc (event_item stream event id)
  = inr (acc.1, acc.2 ++ [ {| type := type event; data := y |} ]).
Proof.
  intros Hy. destruct acc as [v evs], event as [ty x]. unfold read_item.
  change (Vocabulary.event_item JSON_stringify stream {| type := ty; data := x |} id !! "VERSION")
    with (@None AttributeValue).
  change (Vocabulary.event_item JSON_stringify stream {| type := ty; data := x |} id !! "TYPE")
    with (Some (AttrS ty)).
  change (Vocabulary.event_item JSON_stringify stream {| type := ty; data := x |} id !! "DATA")
    with (Some (AttrS (JSON_stringify x))).
  simpl in *. by rewrite Hy.
Qed.

Lemma read_item_version_item stream n acc :
  read_item JSON_parse acc (version_item stream n) = inr (n, acc.2).
Proof.
  destruct acc as [v evs]. unfold read_item, version_item.
  rewrite lookup_insert_eq. by rewrite parseInt_of_Z.
Qed.

Lemma read_items_event_entries stream ws : ∀ evs acc,
  Forall2 read_back_of ws.*1 evs →
  read_items JSON_parse (event_entries stream ws).*2 acc = inr (acc.1, acc.2 ++ evs).
Proof.
  induction ws as [|w ws IH]; intros evs [v evs0] Hrb.
  - apply Forall2_nil_inv_l in Hrb as ->. simpl. by rewrite (right_id_L [] (++)).
  - rewrite fmap_cons in Hrb.
    apply Forall2_cons_inv_l in Hrb as ([ty y] & evs' & [Hty Hy] & Hrb & ->).
    simpl in Hty, Hy. subst ty.
    change ((event_entries stream (w :: ws)).*2)
      with (event_item stream w.1 w.2 :: (event_entries stream ws).*2).
    rewrite read_items_cons, (read_item_event_item _ _ _ _ y) by done.
    rewrite (IH evs') by done. simpl.
    by rewrite <-(assoc_L (++)).
Qed.

Lemma read_items_entries_after stream ws evs :
  Forall2 read_back_of ws.*1 evs →
  read_items JSON_parse (entries_after stream ws).*2 (0, [])
  = inr (Z.of_nat (length ws), evs).
Proof.
  intros Hrb. unfold entries_after, Vocabulary.entries_after.
  rewrite fmap_app, read_items_app, (read_items_event_entries _ _ evs) by done. simpl.
  destruct ws as [|w ws]; [done|].
  change ((version_entry stream (length (w :: ws))).*2)
    with [version_item stream (Z.of_nat (length (w :: ws)))].
  by rewrite read_items_cons, read_item_version_item.
Qed.

Lemma read_back_exists (l : list (Event T)) :
  Forall (λ event, parses_back (data event)) l → ∃ evs, Forall2 read_back_of l evs.
Proof.
  induction 1 as [|event l [y Hy] _ [evs IH]].
  - exists []. constructor.
  - exists ({| type := type event; data := y |} :: evs). by constructor.
Qed.

(** Where the identifiers ascend, the order read is the order written.  After
    the writes [ws] with [Version.Any] to a stream nothing was stored for,
    each drawing an identifier that sorts after the one before and storing a
    payload text that decodes, every write has been accepted, and a read
    returns the version [length ws] and a sequence that yields exactly one
    event per write, in the order of the writes: the [k]-th event is the
    [k]-th written event as read back. *)
Lemma writes_then_read (t : Table) stream (ws : list (Event T * string)) :
  fresh t stream →
  StronglySorted StringOrder.lt ws.*2 →
  Forall (λ event, parses_back (data event)) ws.*1 →
  let t' := (write_each stream ws t).2 in
  (write_each stream ws t).1 = inr tt
  ∧ ∃ evs,
      read stream t'
      = (inr {| name := stream;
                version := Z.of_nat (length ws);
                events := λ _, {| gen_events := evs; gen_i := 0 |} |}, t')
      ∧ (snap ← read stream; copy (events snap ())) t' = (inr evs, t')
      ∧ Forall2 read_back_of ws.*1 evs.
Proof.
  intros Hf Hs Hp t'. subst t'.
  apply stream_holds_fresh in Hf.
  destruct (write_each_spec stream ws [] t Hf) as (t' & Hw & Hh & _).
  { simpl. by apply sorted_NoDup. }
  simpl in Hh. rewrite Hw. simpl.
  destruct (read_back_exists _ Hp) as [evs Hrb].
  assert (read stream t'
          = (inr {| name := stream;
                    version := Z.of_nat (length ws);
                    events := λ _, {| gen_events := evs; gen_i := 0 |} |}, t')) as Hr.
  { rewrite read_unfold.
    rewrite (partition_of_eq t' stream (entries_after stream ws)).
    - by rewrite (read_items_entries_after _ _ evs).
    - by apply entries_after_sorted.
    - intros sk i. symmetry. apply Hh. }
  split; [done|]. exists evs. split; [done|]. split; [|done].
  unfold mbind, Store_bind. rewrite Hr. by rewrite copy_spec.
Qed.

Lemma decode_event_item stream event id :
  round_trips (data event) → decode_event (event_item stream event id) = inr event.
Proof.
  intros Hrt. destruct event as [ty x]. unfold decode_event, Vocabulary.decode_event.
  change (Vocabulary.event_item JSON_stringify stream {| type := ty; data := x |} id !! "TYPE")
    with (Some (AttrS ty)).
  change (Vocabulary.event_item JSON_stringify stream {| type := ty; data := x |} id !! "DATA")
    with (Some (AttrS (JSON_stringify x))).
  simpl in *. by rewrite Hrt.
Qed.

(** C6 (as the code has it).  An event whose write was accepted and whose
    payload survives serialization is read back as it was written: when the
    stream could be read before the write, the read after the write returns a
    snapshot, and its events include an event with the type and the payload of
    the original. *)
Theorem written_event_read_back (t t' : Table) stream event expectedVersion id snap0 :
  (read stream t).1 = inr snap0 →
  write stream event expectedVersion id t = (inr tt, t') →
  round_trips (data event) →
  ∃ snap, read stream t' = (inr snap, t')
          ∧ {| type := type event; data := data event |} ∈ gen_events (events snap ()).
Proof.
  intros Hr0 Hw Hrt.
  apply write_accepted in Hw as (i & Hb & _ & ->).
  set (t' := <[event_key stream id := _]> _).
  rewrite read_unfold in Hr0.
  assert (Forall readable (partition_of t stream).*2) as Hok.
  { apply (read_items_readable _ (0, [])).
    destruct (read_items _ _ _) as [e|r]; [done|eauto]. }
  assert (Forall readable (partition_of t' stream).*2) as Hok'.
  { apply Forall_forall. intros item Hin.
    apply list_elem_of_fmap in Hin as ([sk item'] & -> & Hin). simpl.
    apply elem_of_partition_of in Hin. subst t'.
    destruct (decide (event_key stream id = (stream, sk))) as [Heq|Hne].
    { rewrite <-Heq, lookup_insert_eq in Hin. injection Hin as <-.
      right. exists event. by apply decode_event_item. }
    rewrite lookup_insert_ne in Hin by done.
    destruct (decide (metadata_key stream = (stream, sk))) as [Heq|Hne'].
    { rewrite <-Heq, lookup_insert_eq in Hin. injection Hin as <-.
      left. by eapply bumped_has_VERSION. }
    rewrite lookup_insert_ne in Hin by done.
    rewrite Forall_forall in Hok. apply Hok.
    apply list_elem_of_fmap. exists (sk, item'). split; [done|].
    by apply elem_of_partition_of. }
  apply (read_items_readable _ (0, [])) in Hok' as [r Hr].
  rewrite read_unfold, Hr. eexists. split; [done|]. simpl.
  eapply (read_items_elem _ _ _ (event_item stream event id)); [exact Hr| | |].
  - apply list_elem_of_fmap. exists ("EVENT-" +:+ id, event_item stream event id).
    split; [done|]. apply elem_of_partition_of. subst t'.
    unfold event_key. by rewrite lookup_insert_eq.
  - apply event_item_no_VERSION.
  - destruct event as [ty x]. by apply decode_event_item.
Qed.

End StoreFacts.

(** * The scenarios, run *)
Module ScenarioFacts.
Import Scenario.

(** Scenario A: one write to a fresh stream, then a read. *)
Example scenario_A :
  (snap ← store_read "pony"; observe snap) one_jump = (inr ("pony", 1, [jump 5]), one_jump).
Proof. reflexivity. Qed.

(** Scenario B: two writes, read back in the order written. *)
Example scenario_B :
  (snap ← store_read "pony"; observe snap) two_jumps
  = (inr ("pony", 2, [jump 5; jump 6]), two_jumps).
Proof. reflexivity. Qed.

(** Scenario C: at version 2, expecting 1 or 9 or no stream is rejected,
    expecting 2 is accepted. *)
Example scenario_C :
  (store_write "pony" (jump 1) (Qc_of_Z 1) "0003" two_jumps).1
  = inl (TransactionCanceledException [ConditionalCheckFailed; NoReason])
  ∧ (store_write "pony" (jump 1) (Qc_of_Z 9) "0003" two_jumps).1
    = inl (TransactionCanceledException [ConditionalCheckFailed; NoReason])
  ∧ (store_write "pony" (jump 1) Version.None "0003" two_jumps).1
    = inl (TransactionCanceledException [ConditionalCheckFailed; NoReason])
  ∧ (store_write "pony" (jump 2) (Qc_of_Z 2) "0003" two_jumps).1 = inr tt.
Proof. repeat split; reflexivity. Qed.

(** The order of the sequence is the order of the identifiers: two writes
    whose identifiers descend are read back in the other order. *)
Example order_follows_identifiers :
  let t := (write_each Json.stringify "events" "pony" [(jump 5, "0002"); (jump 6, "0001")] ∅).2 in
  (snap ← store_read "pony"; observe snap) t = (inr ("pony", 2, [jump 6; jump 5]), t).
Proof. reflexivity. Qed.

(** Two writes to the fresh stream "pony" with ascending identifiers. *)
Example writes_then_read_ascending :
  let ws := [(jump 5, "0001"); (jump 6, "0002")] in
  let t' := (write_each Json.stringify "events" "pony" ws ∅).2 in
  (write_each Json.stringify "events" "pony" ws ∅).1 = inr tt
  ∧ ∃ evs,
      store_read "pony" t'
      = (inr {| name := "pony";
                version := 2;
                events := λ _, {| gen_events := evs; gen_i := 0 |} |}, t')
      ∧ (snap ← store_read "pony"; copy (events snap ())) t' = (inr evs, t')
      ∧ Forall2 (read_back_of Json.stringify Json.parse) [jump 5; jump 6] evs.
Proof.
  apply (writes_then_read Json.stringify Json.parse "events" ∅ "pony"
           [(jump 5, "0001"); (jump 6, "0002")]).
  - apply fresh_empty.
  - repeat constructor.
  - repeat constructor; by eexists.
Defined.

(** An instance of C3: the empty table, expecting version 0. *)
Lemma expected_version_rejected_on_unwritten_stream_witness :
  (snap ← store_read "pony"; mret (version snap)) ∅ = (inr 0, ∅)
  ∧ store_write "pony" (jump 5) (Qc_of_Z 0) "0001" ∅
    = (inl (TransactionCanceledException [ConditionalCheckFailed; NoReason]), ∅).
Proof.
  apply (expected_version_rejected_on_unwritten_stream
           Json.stringify Json.parse "events" ∅ "pony" (jump 5) "0001" 0).
  - apply fresh_empty.
  - lia.
Defined.

(** An instance of C5: a table that holds another stream. *)
Lemma read_unwritten_stream_witness :
  store_read "unicorn" one_jump
  = (inr {| name := "unicorn";
            version := 0;
            events := λ _, {| gen_events := []; gen_i := 0 |} |}, one_jump)
  ∧ (store_read "unicorn" one_jump).1 = (store_read "unicorn" ∅).1.
Proof.
  apply (read_unwritten_stream Json.parse one_jump "unicorn").
  apply fresh_write_other; [apply fresh_empty|done].
Defined.

(** An instance of C6: the second write of scenario B, made expecting
    version 1. *)
Lemma written_event_read_back_witness :
  ∃ snap, store_read "pony" two_jumps = (inr snap, two_jumps)
          ∧ jump 6 ∈ gen_events (events snap ()).
Proof.
  apply (written_event_read_back Json.stringify Json.parse "events"
           one_jump two_jumps "pony" (jump 6) (Qc_of_Z 1) "0002"
           {| name := "pony"; version := 1;
              events := λ _, {| gen_events := [jump 5]; gen_i := 0 |} |}).
  - reflexivity.
  - reflexivity.
  - reflexivity.
Defined.

(** Against C6 as stated: a jump whose distance is NaN is written, and read
    back with the distance null, which the text NaN is serialized to decodes
    to. *)
Lemma NaN_payload_read_back_as_null :
  store_write "pony" lost_jump Version.Any "0001" ∅ = (inr tt, lost_jump_written)
  ∧ (snap ← store_read "pony"; observe snap) lost_jump_written
    = (inr ("pony", 1, [ {| type := "PonyJumped"; data := Json.Null |} ]), lost_jump_written)
  ∧ bool_decide (Json.Null = data lost_jump) = false.
Proof. repeat split; reflexivity. Qed.

(** Against C7 as stated: the read of a stream that holds a record whose
    payload is not JSON is rejected at the call, with the failure of
    [JSON.parse]. *)
Lemma malformed_payload_read_fails :
  Json.parse "{" = None
  ∧ store_read "pony" malformed_table = (inl SyntaxError, malformed_table).
Proof. split; reflexivity. Qed.

(** An instance of C7 as the code has it: that table. *)
Lemma malformed_payload_rejects_read_witness :
  (∃ e, (e = SyntaxError ∨ e = TypeError)
        ∧ store_read "pony" malformed_table = (inl e, malformed_table))
  ∧ ∀ (t0 t2 : Table) stream0 snap,
      store_read stream0 t0 = (inr snap, t0) →
      copy (events snap ()) t2 = (inr (gen_events (events snap ())), t2).
Proof.
  apply (malformed_payload_rejects_read Json.parse malformed_table "pony" "EVENT-0001"
           malformed_record (AttrS "{")); reflexivity.
Defined.

(** Against C8 as stated: a record under an event key that carries a VERSION
    attribute supplies the version and is not decoded as an event, where the
    division by sort key makes it an event and leaves the version at 0. *)
Lemma version_attribute_decides_not_sort_key :
  (snap ← store_read "pony"; observe snap) versioned_event_table
  = (inr ("pony", 7, []), versioned_event_table)
  ∧ read_items_by_sort_key Json.parse [versioned_event_record] (0, [])
    = inr (0, [jump 5]).
Proof. split; reflexivity. Qed.

(** An instance of C9: the snapshot of scenario A and the second write of
    scenario B. *)
Lemma snapshot_unchanged_by_write_witness :
  let snap := {| name := "pony"; version := 1;
                 events := λ _, {| gen_events := [jump 5]; gen_i := 0 |} |} in
  (observe snap two_jumps).1 = (observe snap one_jump).1
  ∧ observe snap two_jumps = (inr ("pony", 1, [jump 5]), two_jumps).
Proof.
  apply (snapshot_unchanged_by_write Json.stringify Json.parse "events"
           one_jump "pony"
           {| name := "pony"; version := 1;
              events := λ _, {| gen_events := [jump 5]; gen_i := 0 |} |}
           (jump 6) Version.Any "0002").
  reflexivity.
Defined.

(** Against C10 as stated: -0.5 is negative and is not [Version.None], yet it
    passes the guard [expectedVersion > -1]: the request carries the equality
    condition, and on the empty table the write is rejected where one with
    [Version.Any] is accepted. *)
Lemma minus_half_gets_condition :
  (minus_half < Qc_of_Z 0)%Qc
  ∧ bool_decide (minus_half = Version.None) = false
  ∧ condition_of (metadataUpdate "events" "pony" minus_half)
    = Some (Equals (NameRef "#version") (ValueRef ":expected"))
  ∧ condition_of (metadataUpdate "events" "pony" Version.Any) = None
  ∧ (store_write "pony" (jump 5) minus_half "0001" ∅).1
    = inl (TransactionCanceledException [ConditionalCheckFailed; NoReason])
  ∧ (store_write "pony" (jump 5) Version.Any "0001" ∅).1 = inr tt.
Proof. repeat split; reflexivity. Qed.

(** An instance of C10 as the code has it: -3. *)
Lemma at_most_minus_one_is_Any_witness :
  metadataUpdate "events" "pony" (Qc_of_Z (-3)) = metadataUpdate "events" "pony" Version.Any
  ∧ condition_of (metadataUpdate "events" "pony" (Qc_of_Z (-3))) = None
  ∧ ∀ (event : Event Json.value) id (t : Table),
      write Json.stringify "events" "pony" event (Qc_of_Z (-3)) id t
      = write Json.stringify "events" "pony" event Version.Any id t.
Proof.
  apply (at_most_minus_one_is_Any Json.stringify "events" (Qc_of_Z (-3)) "pony").
  - apply (proj1 (Z2Qc_inj_le (-3) (-1))). lia.
  - intros H. apply Z2Qc_inj in H. lia.
Defined.

End ScenarioFacts.

(** * Further facts about the store *)
Section MoreStoreFacts.
Context {T : Type}.
Variable JSON_stringify : T → string.
Variable JSON_parse : string → option T.
Variable table : string.

#[local] Abbreviation write := (write JSON_stringify table).
#[local] Abbreviation read := (read JSON_parse).
#[local] Abbreviation event_item := (event_item JSON_stringify).
#[local] Abbreviation entries_after := (entries_after JSON_stringify).
#[local] Abbreviation write_each := (write_each JSON_stringify table).
#[local] Abbreviation read_back_of := (read_back_of JSON_stringify JSON_parse).
#[local] Abbreviation parses_back := (parses_back JSON_stringify JSON_parse).
#[local] Abbreviation run_calls := (run_calls JSON_stringify table).

(** ** Streams are apart *)

Lemma write_other_stream (t : Table) stream stream' event expectedVersion id sk :
  stream ≠ stream' →
  (write stream' event expectedVersion id t).2 !! (stream, sk) = t !! (stream, sk).
Proof.
  intros Hne. rewrite write_unfold.
  destruct (prepare t _) as [c|w] eqn:Hp; [done|].
  rewrite prepare_metadataUpdate in Hp.
  destruct (condition_holds _ _); [|done]. destruct (bumped _ _); [|done].
  injection Hp as <-. simpl. unfold event_key, metadata_key.
  by rewrite !lookup_insert_ne by congruence.
Qed.

Lemma partition_of_ext (t t' : Table) pk :
  (∀ sk, t' !! (pk, sk) = t !! (pk, sk)) → partition_of t' pk = partition_of t pk.
Proof.
  intros Heq. apply partition_of_eq; [apply partition_of_sorted|].
  intros sk i. by rewrite elem_of_partition_of, Heq.
Qed.

(** X1.  A write to one stream, accepted or not, leaves what [read] returns
    for every other stream as it was. *)
Theorem write_leaves_other_streams (t : Table) stream stream' event expectedVersion id :
  stream ≠ stream' →
  (read stream (write stream' event expectedVersion id t).2).1 = (read stream t).1.
Proof.
  intros Hne. rewrite !read_unfold.
  rewrite (partition_of_ext t _ stream); [by destruct (read_items _ _ _)|].
  intros sk. by apply write_other_stream.
Qed.

(** ** Writers that expect a version *)

Lemma Qc_succ_ne (x : Qc) : (x + Qc_of_Z 1)%Qc ≠ x.
Proof.
  intros Heq. apply (Qclt_not_eq x (x + Qc_of_Z 1)%Qc); [|done].
  rewrite <-(Qcplus_0_r x) at 1. apply Qcplus_lt_mono_l. by apply (proj1 (Z2Qc_inj_lt 0 1)).
Qed.

Lemma condition_holds_above (stored : option Item) (expectedVersion : Qc) :
  (Qc_of_Z (-1) < expectedVersion)%Qc →
  condition_holds stored expectedVersion
  = bool_decide (stored ≫= lookup "VERSION" = Some (AttrN expectedVersion)).
Proof. intros Hlt. unfold condition_holds. by rewrite decide_True. Qed.

(** X2.  Of two writers that expect the same version of a stream, one after
    the other, the second is rejected for its condition once the first has
    been accepted, and its event is not stored. *)
Theorem second_writer_rejected (t t1 : Table) stream event1 id1 event2 id2 (expectedVersion : Qc) :
  (Qc_of_Z (-1) < expectedVersion)%Qc →
  write stream event1 expectedVersion id1 t = (inr tt, t1) →
  write stream event2 expectedVersion id2 t1
  = (inl (TransactionCanceledException [ConditionalCheckFailed; NoReason]), t1).
Proof.
  intros Hlt Hw. apply write_accepted in Hw as (i & Hb & Hc & ->).
  rewrite condition_holds_above in Hc by done. apply bool_decide_eq_true in Hc.
  pose proof (bumped_version _ _ _ Hb) as Hv.
  unfold stored_version in Hv. rewrite Hc in Hv.
  rewrite write_unfold, prepare_metadataUpdate, condition_holds_above by done.
  rewrite lookup_insert_ne by (symmetry; apply metadata_key_ne_event_key).
  rewrite lookup_insert_eq. simpl. rewrite Hv.
  rewrite bool_decide_eq_false_2; [done|].
  intros [= Heq]. by apply Qc_succ_ne in Heq.
Qed.

(** ** The version record over a history *)

Lemma bumped_version_record stream n :
  bumped stream (version_record stream n) = Some (version_item stream (Z.of_nat (S n))).
Proof.
  destruct n as [|n]; [done|]. unfold version_record.
  rewrite bumped_version_item. do 2 f_equal. lia.
Qed.

Lemma write_version_record (t : Table) stream n stream' event expectedVersion id :
  t !! metadata_key stream = version_record stream n →
  let r := write stream' event expectedVersion id t in
  r.2 !! metadata_key stream
  = version_record stream
      ((if bool_decide (stream' = stream) && accepted r.1 then 1 else 0) + n)%nat.
Proof.
  intros Ht r. subst r. rewrite write_unfold, prepare_metadataUpdate.
  destruct (decide (stream' = stream)) as [->|Hne].
  - rewrite bool_decide_eq_true_2 by done. rewrite Ht.
    destruct (condition_holds _ _); [|done].
    rewrite bumped_version_record. simpl.
    rewrite lookup_insert_ne by (symmetry; apply metadata_key_ne_event_key).
    by rewrite lookup_insert_eq.
  - rewrite bool_decide_eq_false_2 by done. simpl.
    destruct (condition_holds _ _); [|done]. destruct (bumped _ _); [|done].
    simpl. unfold event_key, metadata_key in *.
    by rewrite !lookup_insert_ne by congruence.
Qed.

Lemma run_calls_version_record calls stream : ∀ (t : Table) n,
  t !! metadata_key stream = version_record stream n →
  let r := run_calls calls t in
  r.2 !! metadata_key stream = version_record stream (accepted_count stream calls r.1 + n)%nat.
Proof.
  induction calls as [|c calls IH]; intros t n Ht; simpl; [done|].
  pose proof (write_version_record t stream n (call_stream c) (call_event c)
                (call_expectedVersion c) (call_id c) Ht) as H1.
  simpl in H1. rewrite (IH _ _ H1). f_equal.
  destruct (bool_decide _ && accepted _); lia.
Qed.

Lemma version_record_after (calls : list (WriteCall (T:=T))) stream :
  let r := run_calls calls ∅ in
  r.2 !! metadata_key stream = version_record stream (accepted_count stream calls r.1).
Proof.
  intros r. subst r.
  rewrite (run_calls_version_record calls stream ∅ O) by apply lookup_empty.
  by rewrite Nat.add_0_r.
Qed.

Lemma last_all_equal {A} (l : list A) (a : A) :
  (∀ x, x ∈ l → x = a) → last l = match l with [] => None | _ => Some a end.
Proof.
  intros Hall. destruct (last l) as [x|] eqn:Hl.
  - pose proof (last_Some_elem_of _ _ Hl) as Hin. rewrite (Hall _ Hin). by destruct l.
  - apply last_None in Hl. by subst l.
Qed.

Lemma VERSION_attributes_after (calls : list (WriteCall (T:=T))) stream :
  let r := run_calls calls ∅ in
  let n := accepted_count stream calls r.1 in
  let versions := omap (lookup "VERSION") (partition_of r.2 stream).*2 in
  (∀ v, v ∈ versions → v = AttrN (Qc_of_Z (Z.of_nat n))) ∧ (n = O ↔ versions = []).
Proof.
  intros r n versions.
  pose proof (version_record_after calls stream) as Hrec. simpl in Hrec. fold r n in Hrec.
  assert (tagged_records r.2) as Htag.
  { apply (run_calls_tagged JSON_stringify table calls ∅). intros pk sk i. by rewrite lookup_empty. }
  assert (∀ v, v ∈ versions → n ≠ O ∧ v = AttrN (Qc_of_Z (Z.of_nat n))) as Hall.
  { intros v Hv. apply list_elem_of_omap in Hv as (item & Hin & Hv).
    apply list_elem_of_fmap in Hin as ([sk item'] & -> & Hin). simpl in Hv.
    apply elem_of_partition_of in Hin.
    destruct (Htag _ _ _ Hin) as [_ Hm].
    assert (sk = "_METADATA") as -> by (apply Hm; eauto).
    change (stream, "_METADATA") with (metadata_key stream) in Hin.
    rewrite Hrec in Hin. destruct n as [|n']; [done|].
    injection Hin as <-. split; [done|].
    unfold version_item in Hv. rewrite lookup_insert_eq in Hv. by injection Hv as <-. }
  assert (n ≠ O → AttrN (Qc_of_Z (Z.of_nat n)) ∈ versions) as Hex.
  { intros Hn. apply list_elem_of_omap. exists (version_item stream (Z.of_nat n)). split.
    - apply list_elem_of_fmap. exists ("_METADATA", version_item stream (Z.of_nat n)).
      split; [done|]. apply elem_of_partition_of.
      change (stream, "_METADATA") with (metadata_key stream). rewrite Hrec. by destruct n.
    - unfold version_item. by rewrite lookup_insert_eq. }
  clearbody versions n.
  split; [intros v Hv; by apply Hall|]. split.
  - intros Hn. destruct versions as [|v vs]; [done|].
    destruct (Hall v) as [Hne _]; [left|]. done.
  - intros ->. destruct n as [|n']; [done|].
    specialize (Hex ltac:(done)). by apply elem_of_nil in Hex.
Qed.

Lemma last_version_after (calls : list (WriteCall (T:=T))) stream :
  let r := run_calls calls ∅ in
  last_version (partition_of r.2 stream).*2 = Z.of_nat (accepted_count stream calls r.1).
Proof.
  intros r.
  destruct (VERSION_attributes_after calls stream) as [Hall Hnil]. fold r in Hall, Hnil.
  unfold last_version. rewrite (last_all_equal _ _ Hall).
  destruct (omap _ _) as [|v vs] eqn:Hvs.
  - simpl. destruct Hnil as [_ ->]; done.
  - simpl. apply parseInt_of_Z.
Qed.

(** X3.  On a table that started empty, the version record of a stream
    counts the writes to that stream that were accepted, whatever was tried in
    between: there is no record before the first, and [read], when it returns,
    reports that count as the version. *)
Theorem version_counts_accepted_writes (calls : list (WriteCall (T:=T))) stream :
  let r := run_calls calls ∅ in
  let n := accepted_count stream calls r.1 in
  r.2 !! metadata_key stream = version_record stream n
  ∧ last_version (partition_of r.2 stream).*2 = Z.of_nat n
  ∧ ∀ snap, (read stream r.2).1 = inr snap → version snap = Z.of_nat n.
Proof.
  intros r n.
  pose proof (last_version_after calls stream) as Hlast.
  simpl in Hlast. fold r n in Hlast.
  split; [apply version_record_after|]. split; [done|].
  intros snap. rewrite read_unfold, read_items_partition.
  destruct (decode_events _ _) as [e|evs]; [done|].
  simpl. intros [= <-]. exact Hlast.
Qed.


(** X5.  On a table that started empty, a write that expects a version (a
    number above -1) is accepted exactly when the stream has been written to
    and the expected number is the count of its accepted writes; otherwise it
    is rejected for its condition and changes nothing. *)
Theorem expected_version_over_history (calls : list (WriteCall (T:=T))) stream event id
    (expectedVersion : Qc) :
  (Qc_of_Z (-1) < expectedVersion)%Qc →
  let r := run_calls calls ∅ in
  let n := accepted_count stream calls r.1 in
  write stream event expectedVersion id r.2
  = if bool_decide (n ≠ O ∧ expectedVersion = Qc_of_Z (Z.of_nat n))
    then (inr tt, <[event_key stream id := event_item stream event id]>
                    (<[metadata_key stream := version_item stream (Z.of_nat (S n))]> r.2))
    else (inl (TransactionCanceledException [ConditionalCheckFailed; NoReason]), r.2).
Proof.
  intros Hlt r n. rewrite write_unfold, prepare_metadataUpdate, condition_holds_above by done.
  unfold r, n. rewrite version_record_after.
  destruct (accepted_count _ _ _) as [|n'] eqn:Hn.
  - reflexivity.
  - rewrite bumped_version_record. unfold version_record, version_item.
    simpl mbind. rewrite lookup_insert_eq.
    destruct (decide (expectedVersion = Qc_of_Z (Z.of_nat (S n')))) as [->|Hne].
    + by rewrite !bool_decide_eq_true_2.
    + rewrite !bool_decide_eq_false_2; [done| |]; [by intros [_ ?]|congruence].
Qed.

(** ** The order of the events read *)

Lemma entries_after_Permutation stream (ws ws' : list (Event T * string)) x :
  ws' ≡ₚ ws → x ∈ entries_after stream ws' ↔ x ∈ entries_after stream ws.
Proof.
  intros Hp. unfold entries_after, Vocabulary.entries_after, event_entries.
  rewrite !elem_of_app. by rewrite Hp.
Qed.

(** X6.  The events of a stream are read in the order of their identifiers,
    whatever the order of the writes: after writes with [Version.Any] to a
    stream nothing was stored for, drawing identifiers that differ, [read]
    returns the version [length ws] and the written events, each as read back,
    arranged by ascending identifier. *)
Theorem read_orders_by_identifier (t : Table) stream (ws ws' : list (Event T * string)) :
  fresh t stream →
  ws' ≡ₚ ws →
  StronglySorted StringOrder.lt ws'.*2 →
  Forall (λ event, parses_back (data event)) ws.*1 →
  let t' := (write_each stream ws t).2 in
  (write_each stream ws t).1 = inr tt
  ∧ ∃ evs,
      read stream t'
      = (inr {| name := stream;
                version := Z.of_nat (length ws);
                events := λ _, {| gen_events := evs; gen_i := 0 |} |}, t')
      ∧ Forall2 read_back_of ws'.*1 evs.
Proof.
  intros Hf Hp Hs Hpb t'. subst t'.
  apply (stream_holds_fresh JSON_stringify JSON_parse table) in Hf.
  destruct (write_each_spec JSON_stringify JSON_parse table stream ws [] t Hf) as (t' & Hw & Hh & _).
  { simpl. rewrite <-Hp. by apply sorted_NoDup. }
  simpl in Hh. rewrite Hw. simpl. split; [done|].
  assert (Forall (λ event, parses_back (data event)) ws'.*1) as Hpb' by (by rewrite Hp).
  destruct (read_back_exists _ _ _ Hpb') as [evs Hrb].
  exists evs. split; [|done].
  rewrite read_unfold.
  rewrite (partition_of_eq t' stream (entries_after stream ws')).
  - rewrite (read_items_entries_after _ _ _ _ evs) by done. simpl. by rewrite Hp.
  - by apply (entries_after_sorted JSON_stringify JSON_parse table).
  - intros sk i. rewrite entries_after_Permutation by done. symmetry. apply Hh.
Qed.

(** C1 (where the code departs from it).  The order read is the order of the
    identifiers, not of the writes.  When the second of two writes with
    [Version.Any] to a stream nothing was stored for draws an identifier that
    sorts before the first one's, both writes are accepted, and a read returns
    version 2 and a sequence that yields the event written second before the
    event written first. *)
Theorem second_write_read_first (t : Table) stream event1 event2 id1 id2 y1 y2 :
  fresh t stream →
  StringOrder.lt id2 id1 →
  JSON_parse (JSON_stringify (data event1)) = Some y1 →
  JSON_parse (JSON_stringify (data event2)) = Some y2 →
  let ws := [(event1, id1); (event2, id2)] in
  let evs := [ {| type := type event2; data := y2 |};
               {| type := type event1; data := y1 |} ] in
  let t' := (write_each stream ws t).2 in
  (write_each stream ws t).1 = inr tt
  ∧ read stream t'
    = (inr {| name := stream;
              version := 2;
              events := λ _, {| gen_events := evs; gen_i := 0 |} |}, t')
  ∧ (snap ← read stream; copy (events snap ())) t' = (inr evs, t').
Proof.
  intros Hf Hlt Hy1 Hy2 ws evs t'. subst t'.
  assert (id2 ≠ id1) as Hne by (by apply StringOrderFacts.lt_neq).
  apply (stream_holds_fresh JSON_stringify JSON_parse table) in Hf.
  destruct (write_each_spec JSON_stringify JSON_parse table stream ws [] t Hf)
    as (t' & Hw & Hh & _).
  { simpl. apply NoDup_cons. split; [|apply NoDup_singleton].
    rewrite list_elem_of_singleton. congruence. }
  simpl in Hh. rewrite Hw. simpl. split; [done|].
  assert (read stream t'
          = (inr {| name := stream;
                    version := 2;
                    events := λ _, {| gen_events := evs; gen_i := 0 |} |}, t')) as Hr.
  { rewrite read_unfold.
    rewrite (partition_of_eq t' stream (entries_after stream [(event2, id2); (event1, id1)])).
    - rewrite (read_items_entries_after _ _ _ _ evs); [done|].
      repeat constructor; done.
    - apply (entries_after_sorted JSON_stringify JSON_parse table).
      repeat constructor; done.
    - intros sk i. rewrite (entries_after_Permutation _ ws) by apply perm_swap.
      symmetry. apply Hh. }
  split; [done|].
  unfold mbind, Store_bind. rewrite Hr. by rewrite copy_spec.
Qed.

(** X7.  The insert step is unconditional: a write that draws the identifier
    of an earlier write to the stream replaces that event record.  After two
    writes to a fresh stream with one identifier, [read] returns version 2 and
    a single event, the second as read back. *)
Theorem colliding_identifier_replaces_event (t : Table) stream event1 event2 id y :
  fresh t stream →
  JSON_parse (JSON_stringify (data event2)) = Some y →
  let t' := (write_each stream [(event1, id); (event2, id)] t).2 in
  (write_each stream [(event1, id); (event2, id)] t).1 = inr tt
  ∧ read stream t'
    = (inr {| name := stream;
              version := 2;
              events := λ _, {| gen_events := [ {| type := type event2; data := y |} ];
                                gen_i := 0 |} |}, t').
Proof.
  intros Hf Hy t'. subst t'.
  apply (stream_holds_fresh JSON_stringify JSON_parse table) in Hf.
  destruct (write_Any_step JSON_stringify JSON_parse table t stream [] event1 id Hf) as (t1 & Hw1 & Hh1 & _).
  { intros w Hw. by apply elem_of_nil in Hw. }
  pose proof (stream_holds_metadata JSON_stringify JSON_parse table _ _ _ Hh1) as Hm1. simpl in Hm1, Hh1.
  assert (write stream event2 Version.Any id t1
          = (inr tt, <[event_key stream id := event_item stream event2 id]>
                       (<[metadata_key stream := version_item stream 2]> t1))) as Hw2.
  { rewrite write_unfold, prepare_metadataUpdate, condition_holds_Any, Hm1.
    by rewrite bumped_version_item. }
  simpl. unfold mbind, Store_bind. rewrite Hw1, Hw2. simpl. split; [done|].
  rewrite read_unfold.
  rewrite (partition_of_eq _ stream
             [("EVENT-" +:+ id, event_item stream event2 id);
              ("_METADATA", version_item stream 2)]).
  - change ([("EVENT-" +:+ id, event_item stream event2 id);
             ("_METADATA", version_item stream 2)].*2)
      with [event_item stream event2 id; version_item stream 2].
    rewrite read_items_cons, (read_item_event_item _ _ _ _ _ _ y) by done.
    rewrite read_items_cons, read_item_version_item. done.
  - repeat constructor; apply event_sk_lt_metadata.
  - intros sk i. unfold event_key, metadata_key.
    rewrite !elem_of_cons, elem_of_nil.
    destruct (decide (sk = "EVENT-" +:+ id)) as [->|Hsk].
    { rewrite lookup_insert_eq. split.
      - intros [?|[?|[]]]; simplify_eq/=; done.
      - intros [= <-]. by left. }
    rewrite lookup_insert_ne by congruence.
    destruct (decide (sk = "_METADATA")) as [->|Hsk'].
    { rewrite lookup_insert_eq. split.
      - intros [?|[?|[]]]; simplify_eq/=; done.
      - intros [= <-]. right. by left. }
    rewrite lookup_insert_ne by congruence. split.
    + intros [?|[?|[]]]; simplify_eq/=; done.
    + intros Hl. apply Hh1 in Hl.
      unfold entries_after, Vocabulary.entries_after in Hl. simpl in Hl.
      rewrite !elem_of_cons, elem_of_nil in Hl.
      destruct Hl as [?|[?|[]]]; simplify_eq/=; done.
Qed.

(** ** Events and version *)

Lemma partition_keys_NoDup (t : Table) stream : NoDup (partition_of t stream).*1.
Proof. apply sorted_NoDup, sk_lt_sorted_keys, partition_of_sorted. Qed.

Lemma elem_of_event_keys (t : Table) stream sk :
  sk ∈ event_keys t stream ↔ sk ≠ "_METADATA" ∧ is_Some (t !! (stream, sk)).
Proof.
  unfold event_keys. rewrite list_elem_of_filter, list_elem_of_fmap. split.
  - intros [Hne ([sk' i] & -> & Hin)]. split; [done|].
    apply elem_of_partition_of in Hin. eauto.
  - intros [Hne [i Hi]]. split; [done|]. exists (sk, i). split; [done|].
    by apply elem_of_partition_of.
Qed.

Lemma write_event_keys (t : Table) stream stream' event expectedVersion id :
  let r := write stream' event expectedVersion id t in
  (length (event_keys r.2 stream)
   ≤ (if bool_decide (stream' = stream) && accepted r.1 then 1 else 0)
     + length (event_keys t stream))%nat.
Proof.
  intros r.
  set (new := if bool_decide (stream' = stream) && accepted r.1
              then ["EVENT-" +:+ id] else []).
  assert (event_keys r.2 stream ⊆+ new ++ event_keys t stream) as Hsub.
  { apply NoDup_submseteq.
    { apply NoDup_filter, partition_keys_NoDup. }
    intros sk. rewrite elem_of_app, !elem_of_event_keys. intros [Hne [i Hi]].
    subst r new. rewrite write_unfold, prepare_metadataUpdate in *.
    destruct (condition_holds _ _); [|right; eauto].
    destruct (bumped stream' _) as [j|]; [|right; eauto].
    simpl in *.
    destruct (decide (event_key stream' id = (stream, sk))) as [[= -> <-]|Hk].
    { left. rewrite bool_decide_eq_true_2 by done. by left. }
    rewrite lookup_insert_ne in Hi by done.
    destruct (decide (metadata_key stream' = (stream, sk))) as [[= _ <-]|Hk'];
      [done|].
    rewrite lookup_insert_ne in Hi by done. right. eauto. }
  apply submseteq_length in Hsub. rewrite length_app in Hsub.
  subst new. by destruct (bool_decide _ && accepted _).
Qed.

Lemma run_calls_event_keys calls stream : ∀ (t : Table),
  let r := run_calls calls t in
  (length (event_keys r.2 stream)
   ≤ accepted_count stream calls r.1 + length (event_keys t stream))%nat.
Proof.
  induction calls as [|c calls IH]; intros t; simpl; [done|].
  pose proof (write_event_keys t stream (call_stream c) (call_event c)
                (call_expectedVersion c) (call_id c)) as H1.
  simpl in H1. specialize (IH (write (call_stream c) (call_event c)
                                 (call_expectedVersion c) (call_id c) t).2).
  simpl in IH. lia.
Qed.

Lemma tagged_event_count (l : list (string * Item)) :
  Forall (λ x, tagged x.1 x.2) l →
  length (filter (λ i : Item, i !! "VERSION" = None) l.*2)
  = length (filter (λ sk, sk ≠ "_METADATA") l.*1).
Proof.
  induction 1 as [|[sk i] l [_ Hv] _ IH]; [done|]. simpl in Hv.
  rewrite !fmap_cons. simpl.
  destruct (decide (sk = "_METADATA")) as [->|Hsk].
  - rewrite (filter_cons_False (λ sk, sk ≠ "_METADATA")) by (intros ?; done).
    rewrite filter_cons_False; [done|].
    destruct Hv as [_ [v Hv]]; [done|]. by rewrite Hv.
  - rewrite (filter_cons_True (λ sk, sk ≠ "_METADATA")) by done.
    rewrite filter_cons_True; [simpl; by rewrite IH|].
    destruct (i !! "VERSION") as [v|] eqn:Hi; [|done].
    destruct Hv as [Hv _]. by destruct Hsk, Hv.
Qed.

Lemma decode_events_length (l : list Item) evs :
  decode_events JSON_parse l = inr evs → length evs = length l.
Proof.
  revert evs. induction l as [|i l IH]; intros evs; simpl; [by intros [= <-]|].
  destruct (decode_event JSON_parse i); [done|].
  destruct (decode_events JSON_parse l) as [|evs']; [done|].
  intros [= <-]. simpl. by rewrite (IH evs').
Qed.

(** X8.  On a table that started empty, a snapshot never holds more events
    than its version says: every accepted write adds one to the version and
    stores one event record, in the place of an earlier one when its
    identifier had been drawn before. *)
Theorem events_at_most_version (calls : list (WriteCall (T:=T))) stream snap :
  (read stream (run_calls calls ∅).2).1 = inr snap →
  Z.of_nat (length (gen_events (events snap ()))) ≤ version snap.
Proof.
  set (r := run_calls calls ∅). intros Hr.
  pose proof (last_version_after calls stream) as Hv.
  pose proof (run_calls_event_keys calls stream ∅) as Hk. simpl in Hk. fold r in Hk.
  assert (event_keys ∅ stream = []) as He.
  { unfold event_keys. rewrite partition_of_fresh; [done|]. intros sk. apply lookup_empty. }
  rewrite He in Hk. simpl in Hk.
  assert (Forall (λ x : string * Item, tagged x.1 x.2) (partition_of r.2 stream)) as Ht.
  { apply Forall_forall. intros [sk i] Hin. apply elem_of_partition_of in Hin.
    eapply (run_calls_tagged JSON_stringify table calls ∅); [|exact Hin].
    intros pk sk' j. by rewrite lookup_empty. }
  apply tagged_event_count in Ht. fold (event_keys r.2 stream) in Ht.
  rewrite read_unfold, read_items_partition in Hr.
  destruct (decode_events _ _) as [e|evs] eqn:Hd; [done|].
  simpl in Hr. injection Hr as <-. simpl.
  apply decode_events_length in Hd. fold r in Hv. simpl in Hv.
  unfold last_version in Hv. rewrite Hv, Hd, Ht. lia.
Qed.

(** ** The first draft *)

Lemma Draft0_write_unfold (t : Table) stream event :
  Draft0.write JSON_stringify table stream event t
  = match bumped stream (t !! metadata_key stream) with
    | Some i =>
        (inr tt, <[(stream, "event") := Draft0.event_item JSON_stringify stream event]>
                   (<[metadata_key stream := i]> t))
    | None => (inl (TransactionCanceledException [ValidationError; NoReason]), t)
    end.
Proof.
  unfold Draft0.write, transactWriteItems. cbv [fmap list_fmap].
  change (TransactUpdate _) with (metadataUpdate table stream Version.Any).
  rewrite prepare_metadataUpdate, condition_holds_Any.
  change (prepare t (TransactPut _))
    with (@inr CancellationReason _
            ((stream, "event"), Draft0.event_item JSON_stringify stream event)).
  destruct (bumped _ _) as [i|]; [|done]. simpl.
  rewrite bool_decide_eq_true_2; [done|].
  apply NoDup_cons. split; [|apply NoDup_singleton].
  rewrite list_elem_of_singleton. unfold metadata_key. congruence.
Qed.

Lemma Draft0_write_each (es : list (Event T)) stream : ∀ (t : Table) n event,
  t !! metadata_key stream = version_record stream n →
  (∀ sk, sk ≠ "_METADATA" → sk ≠ "event" → t !! (stream, sk) = None) →
  let r := Draft0.write_each JSON_stringify table stream (event :: es) t in
  r.1 = inr tt
  ∧ r.2 !! metadata_key stream = version_record stream (S (length es) + n)
  ∧ r.2 !! (stream, "event")
    = Some (Draft0.event_item JSON_stringify stream (default event (last es)))
  ∧ ∀ sk, sk ≠ "_METADATA" → sk ≠ "event" → r.2 !! (stream, sk) = None.
Proof.
  induction es as [|event' es IH]; intros t n event Hm Ho.
  - simpl. unfold mbind, Store_bind.
    rewrite Draft0_write_unfold, Hm, bumped_version_record. simpl.
    split; [done|]. unfold metadata_key. split; [|split].
    + rewrite lookup_insert_ne by congruence. by rewrite lookup_insert_eq.
    + by rewrite lookup_insert_eq.
    + intros sk H1 H2. rewrite !lookup_insert_ne by congruence. by apply Ho.
  - set (t1 := <[(stream, "event") := Draft0.event_item JSON_stringify stream event]>
                 (<[metadata_key stream := version_item stream (Z.of_nat (S n))]> t)).
    assert (Draft0.write_each JSON_stringify table stream (event :: event' :: es) t
            = Draft0.write_each JSON_stringify table stream (event' :: es) t1) as Heq.
    { change (Draft0.write_each JSON_stringify table stream (event :: event' :: es) t)
        with (Store_bind _ _
                (λ _, Draft0.write_each JSON_stringify table stream (event' :: es))
                (Draft0.write JSON_stringify table stream event) t).
      unfold Store_bind at 1.
      by rewrite Draft0_write_unfold, Hm, bumped_version_record. }
    cbv zeta. rewrite Heq.
    destruct (IH t1 (S n) event') as (H1 & H2 & H3 & H4).
    + subst t1. unfold metadata_key.
      rewrite lookup_insert_ne by congruence. by rewrite lookup_insert_eq.
    + intros sk Hs1 Hs2. subst t1. unfold metadata_key.
      rewrite !lookup_insert_ne by congruence. by apply Ho.
    + split; [done|]. split; [|split; [|done]].
      * rewrite H2. f_equal. simpl. lia.
      * rewrite H3. do 2 f_equal. rewrite last_cons. by destruct (last es).
Qed.

Lemma read_item_Draft0_event_item stream event acc y :
  JSON_parse (JSON_stringify (data event)) = Some y →
  read_item JSON_parse acc (Draft0.event_item JSON_stringify stream event)
  = inr (acc.1, acc.2 ++ [ {| type := type event; data := y |} ]).
Proof.
  intros Hy. destruct acc as [v evs], event as [ty x]. unfold read_item.
  change (Draft0.event_item JSON_stringify stream {| type := ty; data := x |} !! "VERSION")
    with (@None AttributeValue).
  change (Draft0.event_item JSON_stringify stream {| type := ty; data := x |} !! "TYPE")
    with (Some (AttrS ty)).
  change (Draft0.event_item JSON_stringify stream {| type := ty; data := x |} !! "DATA")
    with (Some (AttrS (JSON_stringify x))).
  simpl in *. by rewrite Hy.
Qed.

(** X9.  In the first draft every write stores its event under the one sort
    key 'event': after any number of writes to a stream nothing was stored
    for, the version counts them all, and [read] returns a single event, the
    one written last. *)
Theorem Draft0_keeps_last_event_only (t : Table) stream event (es : list (Event T)) y :
  fresh t stream →
  JSON_parse (JSON_stringify (data (default event (last es)))) = Some y →
  let t' := (Draft0.write_each JSON_stringify table stream (event :: es) t).2 in
  (Draft0.write_each JSON_stringify table stream (event :: es) t).1 = inr tt
  ∧ Draft0.read JSON_parse stream t'
    = (inr {| name := stream;
              version := Z.of_nat (S (length es));
              events := λ _, {| gen_events := [ {| type := type (default event (last es));
                                                   data := y |} ];
                                gen_i := 0 |} |}, t').
Proof.
  intros Hf Hy t'. subst t'.
  pose proof (Draft0_write_each es stream t O event) as H. cbv zeta in H.
  destruct H as (H1 & H2 & H3 & H4).
  { unfold metadata_key. apply Hf. }
  { intros sk _ _. apply Hf. }
  split; [done|].
  set (t' := (Draft0.write_each JSON_stringify table stream (event :: es) t).2) in *.
  change (Draft0.read JSON_parse stream t') with (read stream t').
  rewrite read_unfold.
  rewrite (partition_of_eq t' stream
             [("_METADATA", version_item stream (Z.of_nat (S (length es))));
              ("event", Draft0.event_item JSON_stringify stream (default event (last es)))]).
  - change ([("_METADATA", ?a); ("event", ?b)].*2) with [a; b].
    rewrite read_items_cons, read_item_version_item.
    rewrite read_items_cons, (read_item_Draft0_event_item _ _ _ y) by done. done.
  - repeat constructor.
  - intros sk i. rewrite !elem_of_cons, elem_of_nil.
    rewrite Nat.add_0_r in H2. unfold metadata_key in H2.
    destruct (decide (sk = "_METADATA")) as [->|Hs1].
    { rewrite H2. simpl. split; [intros [?|[?|[]]]; by simplify_eq/=|].
      intros [= <-]. by left. }
    destruct (decide (sk = "event")) as [->|Hs2].
    { rewrite H3. split; [intros [?|[?|[]]]; by simplify_eq/=|].
      intros [= <-]. right. by left. }
    rewrite H4 by done. split; [intros [?|[?|[]]]; by simplify_eq/=|done].
Qed.

End MoreStoreFacts.

(** * The further scenarios *)
Module MoreScenarioFacts.
Import Scenario MoreScenarios.

(** The history leaves "pony" at version 2: its third call is rejected. *)
Example history_outcomes :
  (run_calls Json.stringify "events" history ∅).1
  = [inr tt; inr tt;
     inl (TransactionCanceledException [ConditionalCheckFailed; NoReason]); inr tt]
  ∧ accepted_count "pony" history (run_calls Json.stringify "events" history ∅).1 = 2%nat
  ∧ accepted_count "unicorn" history (run_calls Json.stringify "events" history ∅).1 = 1%nat.
Proof. repeat split; reflexivity. Qed.

(** An instance of C1 as the code has it: scenario B with the second
    identifier drawn below the first. *)
Lemma second_write_read_first_witness :
  let t' := (Vocabulary.write_each Json.stringify "events" "pony" two_jumps_descending ∅).2 in
  (Vocabulary.write_each Json.stringify "events" "pony" two_jumps_descending ∅).1 = inr tt
  ∧ store_read "pony" t'
    = (inr {| name := "pony";
              version := 2;
              events := λ _, {| gen_events := [jump 6; jump 5]; gen_i := 0 |} |}, t')
  ∧ (snap ← store_read "pony"; copy (events snap ())) t' = (inr [jump 6; jump 5], t').
Proof.
  apply (second_write_read_first Json.stringify Json.parse "events" ∅ "pony"
           (jump 5) (jump 6) "0002" "0001" (Json.Num 5) (Json.Num 6)).
  - apply fresh_empty.
  - reflexivity.
  - reflexivity.
  - reflexivity.
Defined.

(** An instance of X1: a write to "unicorn" seen from "pony". *)
Lemma write_leaves_other_streams_witness :
  (store_read "pony" (store_write "unicorn" (jump 1) Version.None "0002" one_jump).2).1
  = (store_read "pony" one_jump).1.
Proof.
  apply (write_leaves_other_streams Json.stringify Json.parse "events" one_jump
           "pony" "unicorn" (jump 1) Version.None "0002").
  discriminate.
Defined.

(** An instance of X2: two writers that both read version 1. *)
Lemma second_writer_rejected_witness :
  store_write "pony" (jump 7) (Qc_of_Z 1) "0003"
    (store_write "pony" (jump 6) (Qc_of_Z 1) "0002" one_jump).2
  = (inl (TransactionCanceledException [ConditionalCheckFailed; NoReason]),
     (store_write "pony" (jump 6) (Qc_of_Z 1) "0002" one_jump).2).
Proof.
  apply (second_writer_rejected Json.stringify "events" one_jump
           (store_write "pony" (jump 6) (Qc_of_Z 1) "0002" one_jump).2
           "pony" (jump 6) "0002" (jump 7) "0003" (Qc_of_Z 1)).
  - apply (proj1 (Z2Qc_inj_lt (-1) 1)). lia.
  - reflexivity.
Defined.

(** An instance of X5: after the history, "pony" expects version 2. *)
Lemma expected_version_over_history_witness :
  let t := (run_calls Json.stringify "events" history ∅).2 in
  store_write "pony" (jump 8) (Qc_of_Z 2) "0005" t
  = (inr tt,
     <[event_key "pony" "0005" := Vocabulary.event_item Json.stringify "pony" (jump 8) "0005"]>
       (<[metadata_key "pony" := version_item "pony" 3]> t)).
Proof.
  apply (expected_version_over_history Json.stringify "events" history
           "pony" (jump 8) "0005" (Qc_of_Z 2)).
  apply (proj1 (Z2Qc_inj_lt (-1) 2)). lia.
Defined.

(** An instance of X6: scenario B with descending identifiers. *)
Lemma read_orders_by_identifier_witness :
  let t' := (Vocabulary.write_each Json.stringify "events" "pony" two_jumps_descending ∅).2 in
  (Vocabulary.write_each Json.stringify "events" "pony" two_jumps_descending ∅).1 = inr tt
  ∧ ∃ evs,
      store_read "pony" t'
      = (inr {| name := "pony";
                version := 2;
                events := λ _, {| gen_events := evs; gen_i := 0 |} |}, t')
      ∧ Forall2 (Vocabulary.read_back_of Json.stringify Json.parse) [jump 6; jump 5] evs.
Proof.
  apply (read_orders_by_identifier Json.stringify Json.parse "events" ∅ "pony"
           two_jumps_descending [(jump 6, "0001"); (jump 5, "0002")]).
  - apply fresh_empty.
  - apply perm_swap.
  - repeat constructor.
  - repeat constructor; by eexists.
Defined.

(** An instance of X7: two writes that draw the identifier "0001". *)
Lemma colliding_identifier_replaces_event_witness :
  let t' := (Vocabulary.write_each Json.stringify "events" "pony" two_jumps_colliding ∅).2 in
  (Vocabulary.write_each Json.stringify "events" "pony" two_jumps_colliding ∅).1 = inr tt
  ∧ store_read "pony" t'
    = (inr {| name := "pony";
              version := 2;
              events := λ _, {| gen_events := [jump 6]; gen_i := 0 |} |}, t').
Proof.
  apply (colliding_identifier_replaces_event Json.stringify Json.parse "events" ∅ "pony"
           (jump 5) (jump 6) "0001" (Json.Num 6)).
  - apply fresh_empty.
  - reflexivity.
Defined.

(** An instance of X8: the stream "pony" after the history. *)
Lemma events_at_most_version_witness :
  let snap := {| name := "pony";
                 version := 2;
                 events := λ _, {| gen_events := [jump 5; jump 6]; gen_i := 0 |} |} in
  (store_read "pony" (run_calls Json.stringify "events" history ∅).2).1 = inr snap
  ∧ Z.of_nat (length (gen_events (events snap ()))) ≤ version snap.
Proof.
  split; [reflexivity|].
  apply (events_at_most_version Json.stringify Json.parse "events" history "pony").
  reflexivity.
Defined.

(** An instance of X9: three writes through the first draft. *)
Lemma Draft0_keeps_last_event_only_witness :
  let t' := (Draft0.write_each Json.stringify "events" "pony" [jump 5; jump 6; jump 7] ∅).2 in
  (Draft0.write_each Json.stringify "events" "pony" [jump 5; jump 6; jump 7] ∅).1 = inr tt
  ∧ Draft0.read Json.parse "pony" t'
    = (inr {| name := "pony";
              version := 3;
              events := λ _, {| gen_events := [jump 7]; gen_i := 0 |} |}, t').
Proof.
  apply (Draft0_keeps_last_event_only Json.stringify Json.parse "events" ∅ "pony"
           (jump 5) [jump 6; jump 7] (Json.Num 7)).
  - apply fresh_empty.
  - reflexivity.
Defined.

End MoreScenarioFacts.
